(** * directorywatcher: a polling directory watcher (laumann/goutil)

    A shallow embedding of the two variants of the [directorywatcher]
    package: the watcher whose scan walks the directory inline ([scan1]) and
    the watcher with a pluggable scanner function ([scan2], [globScanner],
    [recScanner]).

    Modelling conventions.
    - An [os.FileInfo] interface value is a [FileInfo] record; a possibly nil
      one is an [option FileInfo].  Calling a method on the nil value panics.
    - A [time.Time] is an integer instant; [t.After(u)] is [u < t].
    - [map[string]os.FileInfo] is a [gmap string FileInfo], the [touched]
      map a [gset string].
    - A Go panic is the [Panic] outcome; every function that can reach a nil
      dereference returns an [outcome].
    - A channel of pairs is the list of the values sent on it, in order.
    - The file system below the watched path is a tree of [node]s, giving the
      answers of [os.Lstat], [os.Stat] and of reading a directory.  Symbolic
      links are not modelled, so [os.Stat] and [os.Lstat] agree.
    - What belongs to the Go library and runtime and not to this package
      ([filepath.Match], [filepath.Join], the order in which [range] visits a
      map) is a parameter, the class [Platform].
    - [filepath.Walk] and [filepath.Glob] are modelled from the library,
      over the tree and these parameters, for Unix paths. *)

From Stdlib Require Import ZArith String Ascii.
From stdpp Require Import base option list gmap strings fin_maps sets.

Local Open Scope Z_scope.

(** ** Panics *)

Inductive outcome (A : Type) : Type :=
| Ret (a : A)
| Panic.
Arguments Ret {A} a.
Arguments Panic {A}.

#[global] Instance outcome_ret : MRet outcome := fun _ a => Ret a.
#[global] Instance outcome_bind : MBind outcome := fun _ _ f m =>
  match m with
  | Ret a => f a
  | Panic => Panic
  end.

(** A loop over a list whose body may panic. *)
Fixpoint foldM {A B : Type} (f : A -> B -> outcome A) (a : A) (l : list B)
  : outcome A :=
  match l with
  | [] => Ret a
  | b :: l' => a' ← f a b; foldM f a' l'
  end.

(** ** Data model *)

(** The part of [os.FileInfo] the package can observe. *)
Record FileInfo : Type := mkFileInfo {
  Name : string;
  Size : Z;
  ModTime : Z;
  IsDir : bool
}.

#[global] Instance FileInfo_eq_dec : EqDecision FileInfo.
Proof. solve_decision. Defined.

(** [t.After(u)] of [time.Time]. *)
Definition After (t u : Z) : bool := (u <? t)%Z.

Inductive eventType : Type := Added | Changed | Deleted.

#[global] Instance eventType_eq_dec : EqDecision eventType.
Proof. solve_decision. Defined.

Definition eventNames (et : eventType) : string :=
  match et with
  | Added => "Added"
  | Changed => "Changed"
  | Deleted => "Deleted"
  end.

(** [Event]: the embedded [os.FileInfo] is the field [Info]; the code only
    builds events from metadata it has already dereferenced. *)
Record Event : Type := mkEvent {
  Type_ : eventType;
  Path : string;
  Info : FileInfo
}.

#[global] Instance Event_eq_dec : EqDecision Event.
Proof. solve_decision. Defined.

Record EventsAt : Type := mkEventsAt {
  At : Z;
  Events : list Event
}.

(** An observer is a channel; a channel is known by its identity. *)
Definition Observer : Type := nat.

(** The values sent on the observers' channels, oldest first. *)
Definition trace : Type := list (Observer * EventsAt).

(** [*time.Ticker]: [None] is the nil pointer. *)
Record Ticker : Type := mkTicker { period : Z }.

(** [time.NewTicker] panics on a duration that is not positive. *)
Definition NewTicker (d : Z) : outcome Ticker :=
  if (d <=? 0)%Z then Panic else Ret (mkTicker d).

(** Conversion to the signed 64-bit [time.Duration], and [time.Millisecond]
    in nanoseconds. *)
Definition int64 (z : Z) : Z := (z + 2 ^ 63) mod 2 ^ 64 - 2 ^ 63.
Definition Millisecond : Z := 1000000.

(** The [error] values [New] returns. *)
Inductive goerror : Type :=
| StatError
| Errorf (msg : string).

(** [strFileInfo], the pair sent on a scanner's channel, and [wrapFn]. *)
Definition strFileInfo : Type := string * option FileInfo.

Definition wrapFn (p : string) (fi : option FileInfo) : strFileInfo := (p, fi).

(** ** The file system *)

(** The directory tree at the watched path.  [Missing] is an entry that is
    listed by its parent but cannot be stat-ed (it disappeared, or permission
    is denied).  The children of a directory are in the order in which the
    directory is read (the library sorts the names); [None] is a directory
    that cannot be read. *)
#[warnings="-register-all"]
Inductive node : Type :=
| Missing (name : string)
| File (name : string) (size mtime : Z)
| Dir (name : string) (size mtime : Z) (kids : option (list node)).

Definition node_name (n : node) : string :=
  match n with
  | Missing name => name
  | File name _ _ => name
  | Dir name _ _ _ => name
  end.

(** [os.Lstat] on the path of a node; [None] is a non-nil error, and then the
    returned [os.FileInfo] is nil. *)
Definition Lstat (n : node) : option FileInfo :=
  match n with
  | Missing _ => None
  | File name size mtime => Some (mkFileInfo name size mtime false)
  | Dir name size mtime _ => Some (mkFileInfo name size mtime true)
  end.

Definition Stat (n : node) : option FileInfo := Lstat n.

Definition children (n : node) : list node :=
  match n with
  | Dir _ _ _ (Some kids) => kids
  | _ => []
  end.

(** The errors [filepath.Walk] tells apart. *)
Inductive error : Type := SkipDir | PathError.

#[global] Instance error_eq_dec : EqDecision error.
Proof. solve_decision. Defined.

(** ** What the package takes from the Go library and runtime *)

Class Platform : Type := {
  (** [filepath.Match pattern name]; [None] is [ErrBadPattern]. *)
  Match : string -> string -> option bool;
  (** [filepath.Join]. *)
  Join : string -> string -> string;
  (** The order in which a [range] loop visits a map: unspecified, but every
      key once. *)
  range : gmap string FileInfo -> list (string * FileInfo);
  range_perm : forall m, range m ≡ₚ map_to_list m
}.

(** ** The walk of the library

    [filepath.Walk] of the Go standard library, over the tree.  The callback
    threads a state [S] (what the Go closure captures and mutates), may
    panic, and returns the error that steers the walk. *)

Section Walk.
Context `{Platform} {S : Type}.

Definition WalkFunc : Type :=
  S -> string -> option FileInfo -> option error -> outcome (S * option error).

Variable fn : WalkFunc.

(** The loop of [walk] over the names of a directory; [rec] is [walk]
    itself.  An entry whose [lstat] fails is handed to the callback with
    nil metadata; an error other than [SkipDir] ends the walk. *)
Definition walkEntries (rec : string -> node -> S -> outcome (S * option error))
    (path : string) : list node -> S -> outcome (S * option error) :=
  fix entries (ks : list node) (s : S) {struct ks} :=
    match ks with
    | [] => Ret (s, None)
    | k :: ks' =>
        let filename := Join path (node_name k) in
        match Lstat k with
        | None =>
            r ← fn s filename None (Some PathError);
            match r with
            | (s', None) | (s', Some SkipDir) => entries ks' s'
            | (s', Some err) => Ret (s', Some err)
            end
        | Some fileInfo =>
            r ← rec filename k s;
            match r with
            | (s', None) => entries ks' s'
            | (s', Some err) =>
                if negb (IsDir fileInfo) || negb (bool_decide (err = SkipDir))
                then Ret (s', Some err)
                else entries ks' s'
            end
        end
    end.

(** [walk path info fn]: a file is handed to the callback; a directory is
    read first, then handed to the callback together with the error of the
    read, and if neither failed its entries are visited in order. *)
Fixpoint walk (path : string) (n : node) (s : S) {struct n}
  : outcome (S * option error) :=
  match n with
  | Missing _ => fn s path None (Some PathError)
  | File _ _ _ => fn s path (Lstat n) None
  | Dir _ _ _ None => fn s path (Lstat n) (Some PathError)
  | Dir _ _ _ (Some names) =>
      r ← fn s path (Lstat n) None;
      match r with
      | (s1, Some err1) => Ret (s1, Some err1)
      | (s1, None) => walkEntries walk path names s1
      end
  end.

(** [filepath.Walk root fn]. *)
Definition Walk (root : string) (w : node) (s : S)
  : outcome (S * option error) :=
  r ← match Lstat w with
      | None => fn s root None (Some PathError)
      | Some _ => walk root w s
      end;
  match r with
  | (s', Some SkipDir) => Ret (s', None)
  | _ => Ret r
  end.
End Walk.

(** ** Patterns of paths

    What [filepath.Glob] looks at in a pattern, on Unix: the metacharacters
    and the separator. *)

Definition magicChars : list ascii := ["*"; "?"; "["; "\"]%char.

(** [hasMeta]: the string has a metacharacter. *)
Definition hasMeta (s : string) : bool :=
  existsb (fun c => bool_decide (c ∈ magicChars)) (list_ascii_of_string s).

(** The segments of a pattern between the separators: the first one and the
    ones after it. *)
Fixpoint splitSegments (s : string) : string * list string :=
  match s with
  | EmptyString => (EmptyString, [])
  | String c s' =>
      if decide (c = "/"%char)
      then (EmptyString, (splitSegments s').1 :: (splitSegments s').2)
      else (String c (splitSegments s').1, (splitSegments s').2)
  end.

Definition segments (s : string) : list string :=
  (splitSegments s).1 :: (splitSegments s).2.

(** The string has no separator. *)
Fixpoint noSeparator (s : string) : bool :=
  match s with
  | EmptyString => true
  | String c s' => negb (bool_decide (c = "/"%char)) && noSeparator s'
  end.

(** A pattern for the entries of one directory: no separator, and not one of
    the names that [filepath.Join] removes. *)
Definition entryPattern (s : string) : bool :=
  noSeparator s
  && negb (bool_decide (s = ""))
  && negb (bool_decide (s = "."))
  && negb (bool_decide (s = "..")).

(** ** The diff engine

    The statements that the three scan loops share: [matches], the lookup of
    [hasChange], the body that records a file ([note]) and the final loop over
    the snapshot that reports deletions ([sweep]). *)

Section Engine.
Context `{Platform}.

Definition matches (pattern name : string) : bool :=
  match Match pattern name with
  | Some matched => matched
  | None => false
  end.

(** The body of [hasChange], on the snapshot [dw.files]. *)
Definition hasChangeIn (files : gmap string FileInfo) (p : string)
    (info : FileInfo) : Event * bool :=
  match files !! p with
  | Some oldInfo =>
      (mkEvent Changed p info, After (ModTime info) (ModTime oldInfo))
  | None => (mkEvent Added p info, true)
  end.

(** What a scan mutates: [dw.files], [changed] and [touched]. *)
Record scanState : Type := mkScanState {
  st_files : gmap string FileInfo;
  st_changed : list Event;
  st_touched : gset string
}.

(** [if ev, yes := dw.hasChange(path, info); yes { dw.files[path] = info;
    changed = append(changed, ev) }; touched[path] = true]. *)
Definition note (st : scanState) (p : string) (info : FileInfo) : scanState :=
  let '(ev, yes) := hasChangeIn (st_files st) p info in
  if yes
  then mkScanState (<[p := info]> (st_files st)) (st_changed st ++ [ev])
                   ({[p]} ∪ st_touched st)
  else mkScanState (st_files st) (st_changed st) ({[p]} ∪ st_touched st).

(** One iteration of [for path, info := range dw.files]. *)
Definition sweep_step (touched : gset string)
    (acc : gmap string FileInfo * list Event) (kv : string * FileInfo)
  : gmap string FileInfo * list Event :=
  if decide (kv.1 ∈ touched) then acc
  else (delete kv.1 acc.1, acc.2 ++ [mkEvent Deleted kv.1 kv.2]).

(** The loop over the snapshot.  Deleting the key being visited does not
    disturb the iteration: every entry of the map is visited once. *)
Definition sweep (st : scanState) : gmap string FileInfo * list Event :=
  foldl (sweep_step (st_touched st)) (st_files st, st_changed st)
        (range (st_files st)).

(** [glob(dir, pat, matches)] of the library, the listing that
    [filepath.Glob] makes for the last element of a pattern, for the node [w]
    at [dir]: the entries of the directory whose name matches [pat], in the
    order of the names, each joined with [dir]; nothing when [w] is not a
    directory that can be read.  A bad pattern gives no path.  Each path
    comes with the node it names, which answers the [os.Stat] that follows.
    For a path [dir] without metacharacter and a pattern [pat] with a
    metacharacter and no separator, as the [*] of [globScanner], this is
    [filepath.Glob(filepath.Join(dir, pat))]. *)
Definition Glob (w : node) (dir pat : string) : list (string * node) :=
  (fun k => (Join dir (node_name k), k))
    <$> filter (fun k => matches pat (node_name k)) (children w).

(** The entry with a given name of the directory [cand], with its path. *)
Definition entryNamed (cand : string * node) (name : string)
  : option (string * node) :=
  k ← head (filter (fun k => node_name k = name) (children cand.2));
  Some (Join cand.1 name, k).

(** [glob(dir, pat, matches)] of the library over the directories found so
    far: the entries of each whose name matches, appended in order. *)
Definition globAll (pat : string) (cands : list (string * node))
  : list (string * node) :=
  cands ≫= fun c => Glob c.2 c.1 pat.

(** [filepath.Glob] below the directory [cand], for the segments of a
    pattern.  Segments without metacharacter are followed as names; if no
    segment has a metacharacter the path is returned when [os.Lstat] finds
    it; from the first segment with a metacharacter on, each segment is
    matched against the names of the directories reached so far.  A
    directory that cannot be read is taken not to be searchable either: no
    path below it is found. *)
Fixpoint globSegments (cand : string * node) (segs : list string)
  : list (string * node) :=
  match segs with
  | [] => match Lstat cand.2 with
          | Some _ => [cand]
          | None => []
          end
  | s :: segs' =>
      if hasMeta s then foldl (fun cands s => globAll s cands) [cand] segs
      else match entryNamed cand s with
           | Some c => globSegments c segs'
           | None => []
           end
  end.

(** [filepath.Glob(filepath.Join(dir, pat))] for the node [w] at [dir], for
    a path [dir] without metacharacter and a pattern [pat] whose segments are
    names or patterns of names (none is empty, [.] or [..]). *)
Definition GlobPath (w : node) (dir pat : string) : list (string * node) :=
  globSegments (dir, w) (segments pat).
End Engine.

(** ** The watcher with a pluggable scanner *)

(** [scanFn]: from the path (and the tree found there) to the values sent on
    the returned channel. *)
Definition scanFn : Type := node -> string -> outcome (list strFileInfo).

Record directoryWatcher : Type := mkWatcher {
  Interval : Z;
  Recursive : bool;
  Pattern : string;
  scan : scanFn;
  path : string;
  files : gmap string FileInfo;
  ticker : option Ticker;
  observers : list Observer;
  Preload : bool
}.

Definition set_scan (dw : directoryWatcher) (f : scanFn) : directoryWatcher :=
  mkWatcher (Interval dw) (Recursive dw) (Pattern dw) f (path dw) (files dw)
            (ticker dw) (observers dw) (Preload dw).

Definition set_files (dw : directoryWatcher) (fs : gmap string FileInfo)
  : directoryWatcher :=
  mkWatcher (Interval dw) (Recursive dw) (Pattern dw) (scan dw) (path dw) fs
            (ticker dw) (observers dw) (Preload dw).

Definition set_ticker (dw : directoryWatcher) (t : option Ticker)
  : directoryWatcher :=
  mkWatcher (Interval dw) (Recursive dw) (Pattern dw) (scan dw) (path dw)
            (files dw) t (observers dw) (Preload dw).

Definition set_observers (dw : directoryWatcher) (os : list Observer)
  : directoryWatcher :=
  mkWatcher (Interval dw) (Recursive dw) (Pattern dw) (scan dw) (path dw)
            (files dw) (ticker dw) os (Preload dw).

Section Watcher.
Context `{Platform}.

(** The callback [recScanner] gives to [filepath.Walk]: it sends the pair
    on the channel [c] and returns the error it was given. *)
Definition sendFn : WalkFunc (S := list strFileInfo) :=
  fun c p info err => Ret (c ++ [wrapFn p info], err).

Definition recScanner : scanFn := fun w p =>
  r ← Walk sendFn p w [];
  Ret r.1.

(** [globScanner]: the paths of [filepath.Glob(filepath.Join(path, "*"))],
    for a watched path without metacharacter the listing of the watched
    directory; a pair is sent for each path that [os.Stat] finds. *)
Definition globScanner : scanFn := fun w p =>
  let all := Glob w p "*" in
  Ret (omap (fun pk => info ← Stat pk.2; Some (wrapFn pk.1 (Some info))) all).

Definition hasChange (dw : directoryWatcher) (p : string) (info : FileInfo)
  : Event * bool :=
  hasChangeIn (files dw) p info.

(** The body of the first loop of [scan2]. *)
Definition visit (pattern : string) (st : scanState) (pair : strFileInfo)
  : outcome scanState :=
  match pair.2 with
  | None => Panic
  | Some info =>
      if IsDir info || negb (matches pattern (Name info)) then Ret st
      else Ret (note st pair.1 info)
  end.

Definition scan2 (dw : directoryWatcher) (w : node)
  : outcome (list Event * directoryWatcher) :=
  c ← scan dw w (path dw);
  st ← foldM (visit (Pattern dw)) (mkScanState (files dw) [] ∅) c;
  Ret ((sweep st).2, set_files dw (sweep st).1).

(** [notify]: the sends it performs, appended to the trace. *)
Definition notify (dw : directoryWatcher) (evAt : EventsAt) (tr : trace)
  : trace :=
  if (length (Events evAt) =? 0)%nat then tr
  else foldl (fun tr ch => tr ++ [(ch, evAt)]) tr (observers dw).

Definition New (w : node) (p : string) : directoryWatcher + goerror :=
  match Stat w with
  | None => inr StatError
  | Some stat =>
      if negb (IsDir stat)
      then inr (Errorf ("Provided path is not a directory: " +:+ p))
      else inl (mkWatcher 2000 false "*" globScanner p ∅ None [] false)
  end.

(** [Start], with the body of the goroutine it spawns run up to the point
    where the ticker exists: [w] is the tree the first scan finds and [now]
    the value of [time.Now()]. *)
Definition Start (dw : directoryWatcher) (w : node) (now : Z)
  : outcome (directoryWatcher * trace) :=
  match ticker dw with
  | Some _ => Ret (dw, [])
  | None =>
      let dw := if Recursive dw then set_scan dw recScanner else dw in
      r ← scan2 dw w;
      let tr := if Preload r.2 then []
                else notify r.2 (mkEventsAt now r.1) [] in
      t ← NewTicker (int64 (int64 (Interval dw) * Millisecond));
      Ret (set_ticker r.2 (Some t), tr)
  end.

(** One iteration of [for now = range dw.ticker.C]. *)
Definition tick (dw : directoryWatcher) (w : node) (now : Z)
  : outcome (directoryWatcher * trace) :=
  r ← scan2 dw w;
  Ret (r.2, notify r.2 (mkEventsAt now r.1) []).

(** [dw.ticker.Stop()] dereferences the ticker. *)
Definition Stop (dw : directoryWatcher) : outcome directoryWatcher :=
  match ticker dw with
  | None => Panic
  | Some _ => Ret (set_ticker dw None)
  end.

Definition Running (dw : directoryWatcher) : bool :=
  match ticker dw with
  | Some _ => true
  | None => false
  end.

Definition AddObserver (dw : directoryWatcher) (obs : Observer)
  : directoryWatcher :=
  set_observers dw (observers dw ++ [obs]).

(** [AddNewObserver]: [o] is the channel that [make(Observer)] returns. *)
Definition AddNewObserver (dw : directoryWatcher) (o : Observer)
  : directoryWatcher * Observer :=
  (set_observers dw (observers dw ++ [o]), o).
End Watcher.

(** ** The watcher that walks inline

    The other variant of the package: the same watcher without the [scan]
    field; [scan1] walks or globs the directory itself. *)

Module Inline.

Record directoryWatcher : Type := mkWatcher {
  Interval : Z;
  Recursive : bool;
  Pattern : string;
  path : string;
  files : gmap string FileInfo;
  ticker : option Ticker;
  observers : list Observer;
  Preload : bool
}.

Definition set_files (dw : directoryWatcher) (fs : gmap string FileInfo)
  : directoryWatcher :=
  mkWatcher (Interval dw) (Recursive dw) (Pattern dw) (path dw) fs
            (ticker dw) (observers dw) (Preload dw).

Definition set_ticker (dw : directoryWatcher) (t : option Ticker)
  : directoryWatcher :=
  mkWatcher (Interval dw) (Recursive dw) (Pattern dw) (path dw) (files dw) t
            (observers dw) (Preload dw).

Section Watcher.
Context `{Platform}.

Definition hasChange (dw : directoryWatcher) (p : string) (info : FileInfo)
  : Event * bool :=
  hasChangeIn (files dw) p info.

(** The callback [scan1] gives to [filepath.Walk]. *)
Definition walkFn (pattern : string) : WalkFunc (S := scanState) :=
  fun st p info err =>
    match info with
    | None => Panic
    | Some info =>
        if IsDir info || negb (matches pattern (Name info))
        then Ret (st, None)
        else Ret (note st p info, err)
    end.

(** The body of the loop over the result of [filepath.Glob]. *)
Definition globStep (st : scanState) (pk : string * node) : scanState :=
  match Stat pk.2 with
  | None => st
  | Some info => if IsDir info then st else note st pk.1 info
  end.

Definition scan1 (dw : directoryWatcher) (w : node)
  : outcome (list Event * directoryWatcher) :=
  let st0 := mkScanState (files dw) [] ∅ in
  st ← (if Recursive dw
        then r ← Walk (walkFn (Pattern dw)) (path dw) w st0; Ret r.1
        else Ret (foldl globStep st0 (GlobPath w (path dw) (Pattern dw))));
  Ret ((sweep st).2, set_files dw (sweep st).1).

Definition notify (dw : directoryWatcher) (evAt : EventsAt) (tr : trace)
  : trace :=
  if (length (Events evAt) =? 0)%nat then tr
  else foldl (fun tr ch => tr ++ [(ch, evAt)]) tr (observers dw).

Definition New (w : node) (p : string) : directoryWatcher + goerror :=
  match Stat w with
  | None => inr StatError
  | Some stat =>
      if negb (IsDir stat)
      then inr (Errorf ("Provided path is not a directory: " +:+ p))
      else inl (mkWatcher 2000 false "*" p ∅ None [] false)
  end.

Definition Start (dw : directoryWatcher) (w : node) (now : Z)
  : outcome (directoryWatcher * trace) :=
  match ticker dw with
  | Some _ => Ret (dw, [])
  | None =>
      r ← scan1 dw w;
      let tr := if Preload r.2 then []
                else notify r.2 (mkEventsAt now r.1) [] in
      t ← NewTicker (int64 (int64 (Interval dw) * Millisecond));
      Ret (set_ticker r.2 (Some t), tr)
  end.

Definition Stop (dw : directoryWatcher) : outcome directoryWatcher :=
  match ticker dw with
  | None => Panic
  | Some _ => Ret (set_ticker dw None)
  end.

Definition Running (dw : directoryWatcher) : bool :=
  match ticker dw with
  | Some _ => true
  | None => false
  end.
End Watcher.

End Inline.

(** ** Notions used to state the properties *)

Section Notions.
Context `{Platform}.

(** The entries of a traversal that the first loop of a scan records: those
    that are not directories and whose name matches the pattern. *)
Definition fresh (pattern : string) (c : list strFileInfo)
  : list (string * FileInfo) :=
  omap (fun pair : strFileInfo =>
          info ← pair.2;
          if IsDir info || negb (matches pattern (Name info)) then None
          else Some (pair.1, info)) c.

(** The paths of these entries. *)
Definition matching (pattern : string) (c : list strFileInfo) : gset string :=
  list_to_set (fresh pattern c).*1.

(** The traversal [c] has an entry for [p] that a scan records. *)
Definition touches (pattern : string) (c : list strFileInfo) (p : string)
  : Prop :=
  exists info, (p, Some info) ∈ c /\ IsDir info = false
               /\ matches pattern (Name info) = true.

(** [foldl] of [note] over recorded entries. *)
Definition noteAll (st : scanState) (l : list (string * FileInfo))
  : scanState :=
  foldl (fun st pi => note st pi.1 pi.2) st l.

(** The event the first loop emits for an entry, given the snapshot. *)
Definition eventFor (files : gmap string FileInfo) (pi : string * FileInfo)
  : option Event :=
  match files !! pi.1 with
  | None => Some (mkEvent Added pi.1 pi.2)
  | Some oldInfo =>
      if After (ModTime pi.2) (ModTime oldInfo)
      then Some (mkEvent Changed pi.1 pi.2) else None
  end.

(** The deletions the second loop reports. *)
Definition deletions (st : scanState) : list Event :=
  (fun kv => mkEvent Deleted kv.1 kv.2)
    <$> filter (fun kv => kv.1 ∉ st_touched st) (range (st_files st)).

(** The state of a scan of [dw] after its first loop has consumed [c]. *)
Definition scanned (dw : directoryWatcher) (c : list strFileInfo) : scanState :=
  noteAll (mkScanState (files dw) [] ∅) (fresh (Pattern dw) c).

(** Successive scans of one watcher, over the trees found at each scan. *)
Fixpoint scans (dw : directoryWatcher) (ws : list node)
  : outcome (list (list Event) * directoryWatcher) :=
  match ws with
  | [] => Ret ([], dw)
  | w :: ws' =>
      r ← scan2 dw w;
      r' ← scans r.2 ws';
      Ret (r.1 :: r'.1, r'.2)
  end.
End Notions.

(** The pluggable watcher with the configuration and state of an inline one:
    [New] installs [globScanner] and [Start] replaces it by [recScanner] when
    [Recursive] is set. *)
Definition pluggable_of `{Platform} (dwi : Inline.directoryWatcher)
  : directoryWatcher :=
  mkWatcher (Inline.Interval dwi) (Inline.Recursive dwi) (Inline.Pattern dwi)
            (if Inline.Recursive dwi then recScanner else globScanner)
            (Inline.path dwi) (Inline.files dwi) (Inline.ticker dwi)
            (Inline.observers dwi) (Inline.Preload dwi).

(** The two scans behave alike: both panic, or both return the same batch
    and the same snapshot. *)
Definition same_result
    (r1 : outcome (list Event * Inline.directoryWatcher))
    (r2 : outcome (list Event * directoryWatcher)) : Prop :=
  match r1, r2 with
  | Ret (evs1, dw1), Ret (evs2, dw2) =>
      evs1 = evs2 /\ Inline.files dw1 = files dw2
  | Panic, Panic => True
  | _, _ => False
  end.

(** The two scans behave alike up to the order in which each of them visits
    its snapshot: both panic, or they produce the same snapshot, and batches
    that begin with the same events of the traversal and end with the same
    [Deleted] events, each in an order of its own. *)
Definition same_up_to_order
    (r1 : outcome (list Event * Inline.directoryWatcher))
    (r2 : outcome (list Event * directoryWatcher)) : Prop :=
  match r1, r2 with
  | Ret (evs1, dw1), Ret (evs2, dw2) =>
      (exists found dels1 dels2 : list Event,
          evs1 = found ++ dels1 /\ evs2 = found ++ dels2
          /\ Forall (fun e => Type_ e <> Deleted) found
          /\ Forall (fun e => Type_ e = Deleted) dels1
          /\ dels1 ≡ₚ dels2)
      /\ Inline.files dw1 = files dw2
  | Panic, Panic => True
  | _, _ => False
  end.

(** The node is not a directory that cannot be read: a path below it is
    found by [os.Lstat] exactly when the listing has it. *)
Definition listed (n : node) : bool :=
  match n with
  | Dir _ _ _ None => false
  | _ => true
  end.

(** What the two recursive traversals do on the same tree: [sent] is the
    walk of [recScanner], appending to the channel, and [walked] the walk of
    [scan1], recording as it goes.  Either the walk ends without error, every
    pair sent carries metadata and [scan1] has recorded what [scan2] will
    record from the pairs; or the walk stops at an entry without metadata,
    which is sent, and at which [scan1] panics. *)
Definition agree_on `{Platform} (pattern : string)
    (sent : list strFileInfo -> outcome (list strFileInfo * option error))
    (walked : scanState -> outcome (scanState * option error)) : Prop :=
  exists (L : list strFileInfo) (e : option error),
    (forall acc, sent acc = Ret (acc ++ L, e))
    /\ ((e = None
         /\ Forall (fun pair : strFileInfo => pair.2 <> None) L
         /\ forall st, walked st = Ret (noteAll st (fresh pattern L), None))
        \/ (e = Some PathError
            /\ (exists q, (q, None) ∈ L)
            /\ forall st, walked st = Panic)).

(** A tree in which every directory can be read. *)
Fixpoint readable (n : node) : bool :=
  match n with
  | Missing _ => true
  | File _ _ _ => true
  | Dir _ _ _ None => false
  | Dir _ _ _ (Some kids) => forallb readable kids
  end.

(** Every record of [m] is in [m'], possibly replaced by a more recent one. *)
Definition older (m m' : gmap string FileInfo) : Prop :=
  forall p j, m !! p = Some j ->
    exists j', m' !! p = Some j' /\ ModTime j <= ModTime j'.

(** The snapshot holds, for every entry of [l], a record at least as
    recent. *)
Definition settled (m : gmap string FileInfo) (l : list (string * FileInfo))
  : Prop :=
  forall p i, (p, i) ∈ l ->
    exists j, m !! p = Some j /\ ModTime i <= ModTime j.

(** The number of events of a kind for a path in a batch. *)
Definition count_events (ty : eventType) (p : string) (evs : list Event) : nat :=
  length (filter (fun e => Type_ e = ty /\ Path e = p) evs).

(** ** A platform to run the definitions on

    [filepath.Match] restricted to patterns made of [*], [?] and literal
    characters (a pattern with a bracket or a backslash is answered as a bad
    pattern), [filepath.Join] on clean operands, and the map visited in the
    order of [map_to_list]. *)

Definition slash : ascii := "/"%char.

Fixpoint glob_match (pat name : list ascii) {struct pat} : bool :=
  match pat with
  | [] => match name with [] => true | _ => false end
  | c :: pat' =>
      if bool_decide (c = "*"%char) then
        (fix star (name : list ascii) : bool :=
           glob_match pat' name
           || match name with
              | [] => false
              | d :: name' => negb (bool_decide (d = slash)) && star name'
              end) name
      else
        match name with
        | [] => false
        | d :: name' =>
            (if bool_decide (c = "?"%char) then negb (bool_decide (d = slash))
             else bool_decide (c = d))
            && glob_match pat' name'
        end
  end.

Definition simple_pattern (pat : list ascii) : bool :=
  forallb (fun c => negb (bool_decide (c = "["%char))
                    && negb (bool_decide (c = "\"%char))) pat.

Definition testMatch (pattern name : string) : option bool :=
  if simple_pattern (list_ascii_of_string pattern)
  then Some (glob_match (list_ascii_of_string pattern)
                        (list_ascii_of_string name))
  else None.

Definition testPlatform : Platform := {|
  Match := testMatch;
  Join := fun dir name => dir +:+ "/" +:+ name;
  range := map_to_list;
  range_perm := fun m => reflexivity (map_to_list m)
|}.

(** The same platform with the map visited in the opposite order. *)
Definition reversedPlatform : Platform := {|
  Match := testMatch;
  Join := fun dir name => dir +:+ "/" +:+ name;
  range := fun m => reverse (map_to_list m);
  range_perm := fun m => reverse_Permutation (map_to_list m)
|}.

(** ** The rest of the package: strings of events *)

(** [eventType.String]. *)
Definition eventType_String (et : eventType) : string := eventNames et.

(** [Event.String]: [fmt.Sprintf("%s %s", eventNames[e.Type], e.Path)]. *)
Definition Event_String (e : Event) : string :=
  eventNames (Type_ e) +:+ " " +:+ Path e.

(** ** The rest of the package: options

    [NewOpts] walks over the fields of the watcher by reflection.  A value
    held in the [interface{}] of the options map is known by its kind and,
    for the kinds of the exported fields, by its content. *)

Inductive Kind : Type := KInvalid | KBool | KInt | KUint64 | KString | KOther.

#[global] Instance Kind_eq_dec : EqDecision Kind.
Proof. solve_decision. Defined.

(** [VNil] is the nil interface, [VBool], [VInt], [VUint64] and [VString]
    are values of the predeclared types [bool], [int], [uint64] and
    [string], [VDefined k] is a value of a defined type whose underlying
    type has kind [k] (such as [type Flag bool]), [VOther] a value of any
    other type. *)
Inductive value : Type :=
| VNil
| VBool (b : bool)
| VInt (n : Z)
| VUint64 (n : Z)
| VString (s : string)
| VDefined (k : Kind)
| VOther.

(** [reflect.ValueOf(v).Kind()]. *)
Definition kindOf (v : value) : Kind :=
  match v with
  | VNil => KInvalid
  | VBool _ => KBool
  | VInt _ => KInt
  | VUint64 _ => KUint64
  | VString _ => KString
  | VDefined k => k
  | VOther => KOther
  end.

Definition set_Interval (dw : directoryWatcher) (n : Z) : directoryWatcher :=
  mkWatcher n (Recursive dw) (Pattern dw) (scan dw) (path dw) (files dw)
            (ticker dw) (observers dw) (Preload dw).

Definition set_Recursive (dw : directoryWatcher) (b : bool) : directoryWatcher :=
  mkWatcher (Interval dw) b (Pattern dw) (scan dw) (path dw) (files dw)
            (ticker dw) (observers dw) (Preload dw).

Definition set_Pattern (dw : directoryWatcher) (s : string) : directoryWatcher :=
  mkWatcher (Interval dw) (Recursive dw) s (scan dw) (path dw) (files dw)
            (ticker dw) (observers dw) (Preload dw).

Definition set_Preload (dw : directoryWatcher) (b : bool) : directoryWatcher :=
  mkWatcher (Interval dw) (Recursive dw) (Pattern dw) (scan dw) (path dw)
            (files dw) (ticker dw) (observers dw) b.

(** [field.Set(val)] on each exported field: [None] when the type of the
    value is not assignable to the type of the field, on which [Set]
    panics. *)
Definition assignInterval (dw : directoryWatcher) (v : value)
  : option directoryWatcher :=
  match v with VUint64 n => Some (set_Interval dw n) | _ => None end.

Definition assignRecursive (dw : directoryWatcher) (v : value)
  : option directoryWatcher :=
  match v with VBool b => Some (set_Recursive dw b) | _ => None end.

Definition assignPattern (dw : directoryWatcher) (v : value)
  : option directoryWatcher :=
  match v with VString s => Some (set_Pattern dw s) | _ => None end.

Definition assignPreload (dw : directoryWatcher) (v : value)
  : option directoryWatcher :=
  match v with VBool b => Some (set_Preload dw b) | _ => None end.

(** One iteration of the loop over the fields, for a field that can be set:
    [if v, ok := opts[name]; ok { if field.Kind() == val.Kind() {
    field.Set(val); delete(opts, name) } }]. *)
Definition applyOption (name : string) (kind : Kind)
    (assign : directoryWatcher -> value -> option directoryWatcher)
    (acc : directoryWatcher * gmap string value)
  : outcome (directoryWatcher * gmap string value) :=
  match acc.2 !! name with
  | Some v =>
      if decide (kindOf v = kind)
      then match assign acc.1 v with
           | Some dw => Ret (dw, delete name acc.2)
           | None => Panic
           end
      else Ret acc
  | None => Ret acc
  end.

(** [NewOpts]: the fields [scan], [path], [files], [ticker] and [observers]
    are not exported and skipped ([CanSet] is false); the others are visited
    in the order of the struct.  The result comes with the options map as the
    call leaves it: its entries are the ones printed as unused. *)
Definition NewOpts `{Platform} (w : node) (p : string)
    (opts : gmap string value)
  : outcome ((directoryWatcher + goerror) * gmap string value) :=
  match New w p with
  | inr err => Ret (inr err, opts)
  | inl dw =>
      acc ← applyOption "Interval" KUint64 assignInterval (dw, opts);
      acc ← applyOption "Recursive" KBool assignRecursive acc;
      acc ← applyOption "Pattern" KString assignPattern acc;
      acc ← applyOption "Preload" KBool assignPreload acc;
      Ret (inl acc.1, acc.2)
  end.

(** The options that [NewOpts] applies: a field that can be set, with a value
    of the type of the field. *)
Definition accepts (k : string) (v : value) : bool :=
  match v with
  | VUint64 _ => bool_decide (k = "Interval")
  | VBool _ => bool_decide (k = "Recursive") || bool_decide (k = "Preload")
  | VString _ => bool_decide (k = "Pattern")
  | _ => false
  end.

(** The options on which [field.Set] panics: a field that can be set, with
    a value of a defined type of the kind of the field. *)
Definition refuses (k : string) (v : value) : bool :=
  match v with
  | VDefined KUint64 => bool_decide (k = "Interval")
  | VDefined KBool => bool_decide (k = "Recursive") || bool_decide (k = "Preload")
  | VDefined KString => bool_decide (k = "Pattern")
  | _ => false
  end.

(** ** The package [env] *)

Module env.

(** [strings.Split(s, sep)] for a separator of one byte: the first field and
    the fields after it. *)
Fixpoint splitFields (s : string) (sep : ascii) : string * list string :=
  match s with
  | EmptyString => (EmptyString, [])
  | String c s' =>
      if decide (c = sep)
      then (EmptyString, (splitFields s' sep).1 :: (splitFields s' sep).2)
      else (String c (splitFields s' sep).1, (splitFields s' sep).2)
  end.

Definition Split (s : string) (sep : ascii) : list string :=
  (splitFields s sep).1 :: (splitFields s sep).2.

(** [kv[i]]: indexing a slice out of its bounds panics. *)
Definition index {A : Type} (kv : list A) (i : nat) : outcome A :=
  match kv !! i with
  | Some x => Ret x
  | None => Panic
  end.

(** [Map], over the strings [os.Environ()] returns. *)
Definition Map (environ : list string) : outcome (gmap string string) :=
  foldM (fun (env : gmap string string) v =>
           let kv := Split v "="%char in
           k ← index kv 0;
           x ← index kv 1;
           Ret (<[k := x]> env)) ∅ environ.

(** The string of the environment for a variable and its value. *)
Definition entry (kx : string * string) : string := kx.1 +:+ "=" +:+ kx.2.

(** The string has no [=]. *)
Fixpoint plain (s : string) : bool :=
  match s with
  | EmptyString => true
  | String c s' => negb (bool_decide (c = "="%char)) && plain s'
  end.

End env.

(** ** Trees and what a walk can reach *)

(** A tree in which every entry can be stat-ed. *)
Fixpoint statable (n : node) : bool :=
  match n with
  | Missing _ => false
  | File _ _ _ => true
  | Dir _ _ _ None => true
  | Dir _ _ _ (Some kids) => forallb statable kids
  end.

(** The entries of the tree at [p], a directory before its entries and
    the entries in the order of the names; what is below a directory that
    cannot be read is not listed. *)
Fixpoint listing `{Platform} (p : string) (n : node) {struct n}
  : list strFileInfo :=
  (p, Lstat n) ::
  match n with
  | Dir _ _ _ (Some kids) =>
      flat_map (fun k => listing (Join p (node_name k)) k) kids
  | _ => []
  end.

(** ** Worked examples

    A directory [d] with two files and a subdirectory, a variant of it with a
    directory that cannot be read, and one with an entry that cannot be
    stat-ed; watchers for the pattern [*.txt]. *)

Definition exTree : node :=
  Dir "d" 0 50
    (Some [File "a.txt" 3 100; File "b.log" 1 100;
           Dir "sub" 0 60 (Some [File "c.txt" 2 70])]).

Definition exUnreadable : node :=
  Dir "d" 0 50 (Some [Dir "a" 0 60 None; File "b.txt" 3 100]).

Definition exMissing : node :=
  Dir "d" 0 50 (Some [Missing "gone"; File "b.txt" 3 100]).

Definition exInfoA : FileInfo := mkFileInfo "a.txt" 3 100 false.
Definition exInfoB : FileInfo := mkFileInfo "b.txt" 3 100 false.
Definition exInfoC : FileInfo := mkFileInfo "c.txt" 2 70 false.
Definition exOldA : FileInfo := mkFileInfo "a.txt" 3 90 false.
Definition exOldZ : FileInfo := mkFileInfo "z.txt" 1 10 false.

(** A watcher that has seen an older [a.txt] and a file [z.txt]. *)
Definition exWatcher : directoryWatcher :=
  mkWatcher 2000 false "*.txt" (globScanner (H := testPlatform)) "d"
            (<["d/a.txt" := exOldA]> (<["d/z.txt" := exOldZ]> ∅))
            None [1%nat; 2%nat] false.

(** The traversal of [exTree] by [exWatcher], the batch of its scan and the
    watcher after it. *)
Definition exTraversal : list strFileInfo :=
  [("d/a.txt", Some exInfoA);
   ("d/b.log", Some (mkFileInfo "b.log" 1 100 false));
   ("d/sub", Some (mkFileInfo "sub" 0 60 true))].

Definition exBatch : list Event :=
  [mkEvent Changed "d/a.txt" exInfoA; mkEvent Deleted "d/z.txt" exOldZ].

Definition exAfter : directoryWatcher :=
  set_files exWatcher (<["d/a.txt" := exInfoA]> ∅).

(** A new watcher of [d], with two observers. *)
Definition exNew : directoryWatcher :=
  mkWatcher 2000 false "*.txt" (globScanner (H := testPlatform)) "d" ∅
            None [1%nat; 2%nat] false.

Definition exStarted : directoryWatcher :=
  mkWatcher 2000 false "*.txt" (globScanner (H := testPlatform)) "d"
            (<["d/a.txt" := exInfoA]> ∅)
            (Some (mkTicker 2000000000)) [1%nat; 2%nat] false.

(** A recursive watcher of the inline variant, on the pattern [*], and one
    that has seen [b.txt]. *)
Definition exInline : Inline.directoryWatcher :=
  Inline.mkWatcher 2000 true "*" "d" ∅ None [1%nat] false.

Definition exInlineGlob : Inline.directoryWatcher :=
  Inline.mkWatcher 2000 false "*.txt" "d" ∅ None [1%nat] false.

(** Non-recursive watchers of the inline variant: one whose pattern names
    files of a subdirectory, and one that has seen an older [a.txt] and two
    files that are gone. *)
Definition exInlineSub : Inline.directoryWatcher :=
  Inline.mkWatcher 2000 false "sub/*.txt" "d" ∅ None [1%nat] false.

Definition exOldY : FileInfo := mkFileInfo "y.txt" 1 10 false.

Definition exInlineSeen : Inline.directoryWatcher :=
  Inline.mkWatcher 2000 false "*.txt" "d"
    (<["d/a.txt" := exOldA]>
       (<["d/y.txt" := exOldY]> (<["d/z.txt" := exOldZ]> ∅)))
    None [1%nat] false.

Definition exRecursive : directoryWatcher :=
  mkWatcher 2000 true "*" (recScanner (H := testPlatform)) "d"
            (<["d/b.txt" := exInfoB]> ∅) None [1%nat] false.

(** An environment with a variable set twice, options with an [int] given
    for [Interval] and an unknown name, the watcher they give, a watched path
    that is gone, and watchers with a malformed pattern, with a zero interval
    and with a channel registered twice. *)

Definition exEnviron : list (string * string) :=
  [("HOME", "/root"); ("A", "1"); ("A", "2")].

Definition exOpts : gmap string value :=
  <["Interval" := VInt 500]>
    (<["Pattern" := VString "*.go"]> (<["Verbose" := VBool true]> ∅)).

Definition exOptsLeft : gmap string value :=
  <["Interval" := VInt 500]> (<["Verbose" := VBool true]> ∅).

Definition exOptsWatcher : directoryWatcher :=
  mkWatcher 2000 false "*.go" (globScanner (H := testPlatform)) "d" ∅
            None [] false.


Definition exBadPattern : directoryWatcher :=
  mkWatcher 2000 false "[" (globScanner (H := testPlatform)) "d"
            (<["d/a.txt" := exInfoA]> ∅) None [1%nat] false.

Definition exZero : directoryWatcher :=
  mkWatcher 0 false "*" (globScanner (H := testPlatform)) "d" ∅
            None [] false.

Definition exTwice : directoryWatcher :=
  mkWatcher 2000 false "*" (globScanner (H := testPlatform)) "d" ∅
            None [1%nat; 2%nat; 1%nat] false.

Definition exStartTrace : trace :=
  [(1%nat, mkEventsAt 7 [mkEvent Added "d/a.txt" exInfoA]);
   (2%nat, mkEventsAt 7 [mkEvent Added "d/a.txt" exInfoA])].

(** * Properties *)

(** ** The monad of panics *)

Lemma bind_Ret {A B : Type} (m : outcome A) (f : A -> outcome B) (b : B) :
  m ≫= f = Ret b <-> exists a, m = Ret a /\ f a = Ret b.
Proof.
  destruct m as [a|]; simpl; split.
  - intros Hf. exists a. split; [reflexivity | exact Hf].
  - intros (a' & [= <-] & Hf). exact Hf.
  - discriminate.
  - intros (a' & Hm & _). discriminate.
Qed.

Lemma omap_ext_in {A B : Type} (f g : A -> option B) (l : list A) :
  (forall x, x ∈ l -> f x = g x) -> omap f l = omap g l.
Proof.
  induction l as [|x l IH]; intros Hfg; [reflexivity|].
  csimpl. rewrite (Hfg x) by left. rewrite IH; [reflexivity|].
  intros y Hy. apply Hfg. by right.
Qed.

(** ** One recorded entry *)

Section NoteFacts.
Context `{Platform}.

Lemma note_touched st p i : st_touched (note st p i) = {[p]} ∪ st_touched st.
Proof.
  unfold note. destruct (hasChangeIn (st_files st) p i) as [ev []]; reflexivity.
Qed.

Lemma note_changed st p i :
  st_changed (note st p i)
  = st_changed st ++ option_list (eventFor (st_files st) (p, i)).
Proof.
  unfold note, hasChangeIn, eventFor. simpl.
  destruct (st_files st !! p) as [old|]; simpl.
  - destruct (After (ModTime i) (ModTime old)); simpl;
      [reflexivity | by rewrite app_nil_r].
  - reflexivity.
Qed.

Lemma note_files st p i :
  st_files (note st p i)
  = match eventFor (st_files st) (p, i) with
    | Some _ => <[p := i]> (st_files st)
    | None => st_files st
    end.
Proof.
  unfold note, hasChangeIn, eventFor. simpl.
  destruct (st_files st !! p) as [old|]; simpl; [|reflexivity].
  destruct (After (ModTime i) (ModTime old)); reflexivity.
Qed.

Lemma note_files_ne st p i q :
  p <> q -> st_files (note st p i) !! q = st_files st !! q.
Proof.
  intros Hne. rewrite note_files.
  destruct (eventFor (st_files st) (p, i)); [|reflexivity].
  by rewrite lookup_insert_ne.
Qed.

(** After an entry is recorded the snapshot holds, at its path, a record
    that is at least as recent. *)
Lemma note_files_eq st p i :
  exists j, st_files (note st p i) !! p = Some j /\ ModTime i <= ModTime j.
Proof.
  rewrite note_files. unfold eventFor, After. simpl.
  destruct (st_files st !! p) as [old|] eqn:Hold.
  - destruct (ModTime old <? ModTime i) eqn:Hlt.
    + exists i. rewrite lookup_insert_eq. split; [reflexivity | lia].
    + exists old. split; [exact Hold | lia].
  - exists i. rewrite lookup_insert_eq. split; [reflexivity | lia].
Qed.

Lemma note_files_dom st p i :
  dom (st_files (note st p i)) = {[p]} ∪ dom (st_files st).
Proof.
  rewrite note_files. unfold eventFor. simpl.
  destruct (st_files st !! p) as [old|] eqn:Hold.
  - assert (p ∈ dom (st_files st)) as Hin by (apply elem_of_dom; eauto).
    destruct (After _ _); [rewrite dom_insert_L|]; clear Hold; set_solver.
  - by rewrite dom_insert_L.
Qed.

Lemma older_refl m : older m m.
Proof. intros p j Hj. exists j. split; [exact Hj | lia]. Qed.

Lemma older_trans m1 m2 m3 : older m1 m2 -> older m2 m3 -> older m1 m3.
Proof.
  intros H12 H23 p j Hj.
  destruct (H12 p j Hj) as (j2 & Hj2 & Hle2).
  destruct (H23 p j2 Hj2) as (j3 & Hj3 & Hle3).
  exists j3. split; [exact Hj3 | lia].
Qed.

Lemma note_older st p i : older (st_files st) (st_files (note st p i)).
Proof.
  intros q j Hj. destruct (decide (p = q)) as [<-|Hne].
  - rewrite note_files. unfold eventFor, After. simpl. rewrite Hj.
    destruct (ModTime j <? ModTime i) eqn:Hlt.
    + exists i. rewrite lookup_insert_eq. split; [reflexivity | lia].
    + exists j. split; [exact Hj | lia].
  - exists j. rewrite note_files_ne by exact Hne. split; [exact Hj | lia].
Qed.
End NoteFacts.

(** ** The first loop *)

Section LoopFacts.
Context `{Platform}.

Lemma noteAll_cons st p i l :
  noteAll st ((p, i) :: l) = noteAll (note st p i) l.
Proof. reflexivity. Qed.

Lemma noteAll_touched l : forall st,
  st_touched (noteAll st l) = list_to_set l.*1 ∪ st_touched st.
Proof.
  induction l as [|[p i] l IH]; intros st.
  - simpl. set_solver.
  - rewrite noteAll_cons, IH, note_touched. simpl. set_solver.
Qed.

Lemma noteAll_dom l : forall st,
  dom (st_files (noteAll st l)) = list_to_set l.*1 ∪ dom (st_files st).
Proof.
  induction l as [|[p i] l IH]; intros st.
  - simpl. set_solver.
  - rewrite noteAll_cons, IH, note_files_dom. simpl. set_solver.
Qed.

Lemma noteAll_older l : forall st, older (st_files st) (st_files (noteAll st l)).
Proof.
  induction l as [|[p i] l IH]; intros st.
  - apply older_refl.
  - rewrite noteAll_cons. eapply older_trans; [apply note_older | apply IH].
Qed.

Lemma noteAll_settled l : forall st, settled (st_files (noteAll st l)) l.
Proof.
  induction l as [|[p i] l IH]; intros st q i' Hin.
  - by apply elem_of_nil in Hin.
  - rewrite noteAll_cons. apply elem_of_cons in Hin as [[= -> ->]|Hin].
    + destruct (note_files_eq st p i) as (j & Hj & Hle).
      destruct (noteAll_older l (note st p i) p j Hj) as (j' & Hj' & Hle').
      exists j'. split; [exact Hj' | lia].
    + by apply IH.
Qed.

(** Paths outside the traversal keep their record. *)
Lemma noteAll_files_notin l : forall st q,
  q ∉ l.*1 -> st_files (noteAll st l) !! q = st_files st !! q.
Proof.
  induction l as [|[p i] l IH]; intros st q Hq; [reflexivity|].
  rewrite noteAll_cons. simpl in Hq. apply not_elem_of_cons in Hq as [Hne Hq].
  rewrite IH by exact Hq. simpl. apply note_files_ne. congruence.
Qed.

(** When every path is met once, the events are those the snapshot at the
    start of the scan determines, in the order of the traversal. *)
Lemma noteAll_changed l : forall st,
  NoDup l.*1 ->
  st_changed (noteAll st l)
  = st_changed st ++ omap (eventFor (st_files st)) l.
Proof.
  induction l as [|[p i] l IH]; intros st Hnd.
  - simpl. by rewrite app_nil_r.
  - rewrite noteAll_cons. simpl in Hnd. apply NoDup_cons in Hnd as [Hp Hnd].
    rewrite IH by exact Hnd. simpl. rewrite note_changed, <- app_assoc.
    f_equal.
    assert (omap (eventFor (st_files (note st p i))) l
            = omap (eventFor (st_files st)) l) as ->.
    { apply omap_ext_in. intros [q i'] Hin.
      unfold eventFor. simpl.
      rewrite note_files_ne; [reflexivity|].
      intros ->. apply Hp. apply list_elem_of_fmap. by exists (q, i'). }
    destruct (eventFor (st_files st) (p, i)); reflexivity.
Qed.

(** No event of the first loop is a deletion. *)
Lemma noteAll_changed_kinds l : forall st,
  exists evs, st_changed (noteAll st l) = st_changed st ++ evs
              /\ Forall (fun e => Type_ e <> Deleted) evs.
Proof.
  induction l as [|[p i] l IH]; intros st.
  - exists []. simpl. by rewrite app_nil_r.
  - rewrite noteAll_cons. destruct (IH (note st p i)) as (evs & -> & Hk).
    simpl. rewrite note_changed, <- app_assoc. eexists. split; [reflexivity|].
    apply Forall_app. split; [|exact Hk].
    unfold eventFor. simpl. destruct (st_files st !! p) as [old|]; simpl.
    + destruct (After _ _); simpl; repeat constructor. discriminate.
    + repeat constructor. discriminate.
Qed.

(** On a settled snapshot the loop records nothing new. *)
Lemma noteAll_settled_id l : forall m ch t,
  settled m l ->
  noteAll (mkScanState m ch t) l = mkScanState m ch (list_to_set l.*1 ∪ t).
Proof.
  induction l as [|[p i] l IH]; intros m ch t Hs.
  - simpl. f_equal. set_solver.
  - rewrite noteAll_cons. simpl.
    destruct (Hs p i) as (j & Hj & Hle); [by left|].
    assert (note (mkScanState m ch t) p i = mkScanState m ch ({[p]} ∪ t)) as ->.
    { unfold note, hasChangeIn, After. simpl. rewrite Hj.
      destruct (ModTime j <? ModTime i) eqn:Hlt; [lia | reflexivity]. }
    rewrite IH.
    + f_equal. set_solver.
    + intros q i' Hin. apply Hs. by right.
Qed.

Lemma foldM_cons {A B : Type} (f : A -> B -> outcome A) a b l :
  foldM f a (b :: l) = f a b ≫= fun a' => foldM f a' l.
Proof. reflexivity. Qed.

Lemma visit_Some pattern st p info :
  visit pattern st (p, Some info)
  = Ret (if IsDir info || negb (matches pattern (Name info)) then st
         else note st p info).
Proof.
  unfold visit. simpl.
  destruct (IsDir info || negb (matches pattern (Name info))); reflexivity.
Qed.

Lemma fresh_cons_Some pattern p info c :
  fresh pattern ((p, Some info) :: c)
  = (if IsDir info || negb (matches pattern (Name info)) then []
     else [(p, info)]) ++ fresh pattern c.
Proof.
  unfold fresh. csimpl.
  destruct (IsDir info || negb (matches pattern (Name info))); reflexivity.
Qed.

Lemma fresh_cons_None pattern p c :
  fresh pattern ((p, None) :: c) = fresh pattern c.
Proof. reflexivity. Qed.

Lemma fresh_app pattern c1 c2 :
  fresh pattern (c1 ++ c2) = fresh pattern c1 ++ fresh pattern c2.
Proof. apply omap_app. Qed.

(** The loop of [scan2] either panics or records the [fresh] entries. *)
Lemma foldM_visit pattern c : forall st st',
  foldM (visit pattern) st c = Ret st' ->
  st' = noteAll st (fresh pattern c).
Proof.
  induction c as [|[p oi] c IH]; intros st st' Hrun.
  - by injection Hrun as <-.
  - rewrite foldM_cons in Hrun. apply bind_Ret in Hrun as (st1 & Hv & Hrun).
    apply IH in Hrun as ->. destruct oi as [info|]; [|discriminate].
    rewrite visit_Some in Hv. injection Hv as <-. rewrite fresh_cons_Some.
    destruct (IsDir info || negb (matches pattern (Name info))); reflexivity.
Qed.

Lemma foldM_visit_total pattern c : forall st,
  Forall (fun pair : strFileInfo => pair.2 <> None) c ->
  foldM (visit pattern) st c = Ret (noteAll st (fresh pattern c)).
Proof.
  induction c as [|[p oi] c IH]; intros st Hall; [reflexivity|].
  apply Forall_cons in Hall as [Hoi Hall]. simpl in Hoi.
  destruct oi as [info|]; [|congruence].
  rewrite foldM_cons, visit_Some, fresh_cons_Some. simpl.
  rewrite IH by exact Hall.
  destruct (IsDir info || negb (matches pattern (Name info))); reflexivity.
Qed.

Lemma foldM_visit_nil pattern c : forall st,
  (exists p, (p, None) ∈ c) -> foldM (visit pattern) st c = Panic.
Proof.
  induction c as [|[q oi] c IH]; intros st [p Hin].
  - by apply elem_of_nil in Hin.
  - rewrite foldM_cons. destruct oi as [info|]; [|reflexivity].
    apply elem_of_cons in Hin as [[=]|Hin].
    rewrite visit_Some. simpl. apply IH. eauto.
Qed.
End LoopFacts.

(** ** The loop over the snapshot *)

Section SweepFacts.
Context `{Platform}.

Lemma range_elem m p i : (p, i) ∈ range m <-> m !! p = Some i.
Proof. rewrite (range_perm m). apply elem_of_map_to_list. Qed.

Lemma range_keys m p : p ∈ (range m).*1 <-> is_Some (m !! p).
Proof.
  rewrite list_elem_of_fmap. split.
  - intros ([q i] & -> & Hin). apply range_elem in Hin. eauto.
  - intros [i Hi]. exists (p, i). split; [reflexivity | by apply range_elem].
Qed.

Lemma range_NoDup m : NoDup (range m).*1.
Proof. rewrite (range_perm m). apply NoDup_fst_map_to_list. Qed.

Lemma sweep_fold_events t l : forall m ch,
  (foldl (sweep_step t) (m, ch) l).2
  = ch ++ ((fun kv => mkEvent Deleted kv.1 kv.2)
             <$> filter (fun kv => kv.1 ∉ t) l).
Proof.
  induction l as [|[q j] l IH]; intros m ch.
  - simpl. by rewrite app_nil_r.
  - simpl. unfold sweep_step at 2. simpl. destruct (decide (q ∈ t)) as [Hq|Hq].
    + rewrite IH, filter_cons_False; [reflexivity | simpl; tauto].
    + rewrite IH, filter_cons_True by exact Hq. simpl.
      by rewrite <- app_assoc.
Qed.

Lemma sweep_fold_lookup t l : forall m ch p,
  (foldl (sweep_step t) (m, ch) l).1 !! p
  = if decide (p ∈ l.*1 /\ p ∉ t) then None else m !! p.
Proof.
  induction l as [|[q j] l IH]; intros m ch p.
  - rewrite decide_False; [reflexivity|].
    intros [Hin _]. by apply elem_of_nil in Hin.
  - cbn [foldl]. unfold sweep_step at 2. cbn [fst snd]. rewrite fmap_cons.
    cbn [fst]. destruct (decide (q ∈ t)) as [Hq|Hq]; rewrite IH.
    + repeat case_decide; try reflexivity; exfalso; set_solver.
    + destruct (decide (q = p)) as [->|Hne].
      * rewrite lookup_delete_eq.
        repeat case_decide; try reflexivity; exfalso; set_solver.
      * rewrite lookup_delete_ne by exact Hne.
        repeat case_decide; try reflexivity; exfalso; set_solver.
Qed.

(** The second loop keeps the records of the touched paths and drops the
    others. *)
Lemma sweep_lookup st p :
  (sweep st).1 !! p
  = if decide (p ∈ st_touched st) then st_files st !! p else None.
Proof.
  unfold sweep. rewrite sweep_fold_lookup.
  destruct (decide (p ∈ st_touched st)) as [Ht|Ht].
  - case_decide as Hd; [destruct Hd; contradiction | reflexivity].
  - case_decide as Hn; [reflexivity|].
    destruct (st_files st !! p) as [j|] eqn:Hj; [|reflexivity].
    exfalso. apply Hn. split; [|exact Ht]. apply range_keys. eauto.
Qed.

Lemma sweep_events st : (sweep st).2 = st_changed st ++ deletions st.
Proof. unfold sweep, deletions. apply sweep_fold_events. Qed.

Lemma sweep_dom st :
  dom (st_files st) ⊆ st_touched st -> (sweep st).1 = st_files st.
Proof.
  intros Hsub. apply map_eq. intros p. rewrite sweep_lookup.
  destruct (decide (p ∈ st_touched st)) as [Ht|Ht]; [reflexivity|].
  symmetry. apply not_elem_of_dom. set_solver.
Qed.

Lemma deletions_nil st :
  dom (st_files st) ⊆ st_touched st -> deletions st = [].
Proof.
  intros Hsub. unfold deletions.
  assert (filter (fun kv : string * FileInfo => kv.1 ∉ st_touched st)
                 (range (st_files st)) = []) as ->; [|reflexivity].
  apply elem_of_nil_inv. intros [p i] Hin.
  apply list_elem_of_filter in Hin as [Hn Hin]. simpl in Hn.
  apply Hn, Hsub, elem_of_dom. apply range_elem in Hin. eauto.
Qed.

Lemma deletions_kinds st : Forall (fun e => Type_ e = Deleted) (deletions st).
Proof. unfold deletions. apply Forall_fmap, Forall_forall. by intros. Qed.

Lemma elem_of_deletions st p i :
  mkEvent Deleted p i ∈ deletions st
  <-> st_files st !! p = Some i /\ p ∉ st_touched st.
Proof.
  unfold deletions. rewrite list_elem_of_fmap. split.
  - intros ([q j] & [= -> ->] & Hin). apply list_elem_of_filter in Hin as [Hn Hin].
    split; [by apply range_elem | exact Hn].
  - intros [Hi Hn]. exists (p, i). split; [reflexivity|].
    apply list_elem_of_filter. split; [exact Hn | by apply range_elem].
Qed.

Lemma count_deleted_fold (t : gset string) p l :
  NoDup l.*1 ->
  count_events Deleted p
    ((fun kv : string * FileInfo => mkEvent Deleted kv.1 kv.2)
       <$> filter (fun kv => kv.1 ∉ t) l)
  = if decide (p ∈ l.*1 /\ p ∉ t) then 1%nat else 0%nat.
Proof.
  unfold count_events. induction l as [|[q j] l IH]; intros Hnd.
  - rewrite decide_False; [reflexivity|].
    intros [Hin _]. by apply elem_of_nil in Hin.
  - rewrite fmap_cons in Hnd. cbn [fst] in Hnd.
    apply NoDup_cons in Hnd as [Hq Hnd]. specialize (IH Hnd).
    rewrite (fmap_cons fst). cbn [fst].
    destruct (decide (q ∈ t)) as [Ht|Ht].
    + rewrite filter_cons_False by (simpl; tauto). rewrite IH.
      repeat case_decide; try reflexivity; exfalso; set_solver.
    + rewrite filter_cons_True by exact Ht. rewrite fmap_cons. simpl.
      destruct (decide (q = p)) as [->|Hne].
      * rewrite filter_cons_True by (simpl; tauto). simpl. rewrite IH.
        repeat case_decide; try reflexivity; exfalso; set_solver.
      * rewrite filter_cons_False by (simpl; intros [_ ?]; congruence).
        rewrite IH.
        repeat case_decide; try reflexivity; exfalso; set_solver.
Qed.

Lemma count_deleted_deletions st p :
  count_events Deleted p (deletions st)
  = if decide (is_Some (st_files st !! p) /\ p ∉ st_touched st)
    then 1%nat else 0%nat.
Proof.
  unfold deletions. rewrite count_deleted_fold by apply range_NoDup.
  repeat case_decide; try reflexivity; exfalso;
    rewrite range_keys in *; tauto.
Qed.
End SweepFacts.

(** ** Counting events *)

Section CountFacts.
Context `{Platform}.

Lemma count_events_app ty p l1 l2 :
  count_events ty p (l1 ++ l2)
  = (count_events ty p l1 + count_events ty p l2)%nat.
Proof. unfold count_events. by rewrite filter_app, length_app. Qed.

Lemma count_events_nil ty p : count_events ty p [] = 0%nat.
Proof. reflexivity. Qed.

Lemma option_list_Some {A : Type} (x : A) : option_list (Some x) = [x].
Proof. reflexivity. Qed.

Lemma option_list_None {A : Type} : option_list (@None A) = [].
Proof. reflexivity. Qed.

Lemma count_events_hit ty p i : count_events ty p [mkEvent ty p i] = 1%nat.
Proof. unfold count_events. by rewrite filter_cons_True. Qed.

Lemma count_events_miss ty ty' p q i :
  ty <> ty' -> count_events ty p [mkEvent ty' q i] = 0%nat.
Proof.
  intros Hne. unfold count_events. rewrite filter_cons_False; [reflexivity|].
  simpl. intros [? _]. congruence.
Qed.

Lemma count_events_other ty ty' p l :
  Forall (fun e => Type_ e = ty') l -> ty <> ty' -> count_events ty p l = 0%nat.
Proof.
  intros Hall Hne. unfold count_events.
  assert (filter (fun e => Type_ e = ty /\ Path e = p) l = []) as ->;
    [|reflexivity].
  apply elem_of_nil_inv. intros e He.
  apply list_elem_of_filter in He as [[Hty _] He].
  rewrite Forall_forall in Hall. specialize (Hall e He). congruence.
Qed.

Lemma eventFor_Path m pi e : eventFor m pi = Some e -> Path e = pi.1.
Proof.
  unfold eventFor. destruct (m !! pi.1) as [old|].
  - destruct (After _ _); [|discriminate]. by intros [= <-].
  - by intros [= <-].
Qed.

Lemma eventFor_Info m pi e : eventFor m pi = Some e -> Info e = pi.2.
Proof.
  unfold eventFor. destruct (m !! pi.1) as [old|].
  - destruct (After _ _); [|discriminate]. by intros [= <-].
  - by intros [= <-].
Qed.

Lemma eventFor_absent m p i :
  m !! p = None -> eventFor m (p, i) = Some (mkEvent Added p i).
Proof. unfold eventFor. simpl. by intros ->. Qed.

Lemma eventFor_newer m p i oldInfo :
  m !! p = Some oldInfo -> (ModTime oldInfo <? ModTime i) = true ->
  eventFor m (p, i) = Some (mkEvent Changed p i).
Proof. unfold eventFor, After. simpl. by intros -> ->. Qed.

Lemma eventFor_not_newer m p i oldInfo :
  m !! p = Some oldInfo -> (ModTime oldInfo <? ModTime i) = false ->
  eventFor m (p, i) = None.
Proof. unfold eventFor, After. simpl. by intros -> ->. Qed.

Lemma count_eventFor_notin ty m p (l : list (string * FileInfo)) :
  p ∉ l.*1 -> count_events ty p (omap (eventFor m) l) = 0%nat.
Proof.
  intros Hp. unfold count_events.
  assert (filter (fun e => Type_ e = ty /\ Path e = p) (omap (eventFor m) l)
          = []) as ->; [|reflexivity].
  apply elem_of_nil_inv. intros e He.
  apply list_elem_of_filter in He as [[_ Hpath] He].
  apply list_elem_of_omap in He as (pi & Hin & Hev).
  apply eventFor_Path in Hev. apply Hp. apply list_elem_of_fmap.
  exists pi. split; [congruence | exact Hin].
Qed.

(** With every path met once, the events for a path are those of its one
    entry. *)
Lemma count_eventFor ty m p i (l : list (string * FileInfo)) :
  NoDup l.*1 -> (p, i) ∈ l ->
  count_events ty p (omap (eventFor m) l)
  = count_events ty p (option_list (eventFor m (p, i))).
Proof.
  induction l as [|[q j] l IH]; intros Hnd Hin.
  - by apply elem_of_nil in Hin.
  - rewrite fmap_cons in Hnd. cbn [fst] in Hnd.
    apply NoDup_cons in Hnd as [Hq Hnd].
    change (omap (eventFor m) ((q, j) :: l))
      with (omap (eventFor m) ([(q, j)] ++ l)).
    rewrite omap_app, count_events_app.
    apply elem_of_cons in Hin as [[= <- <-]|Hin].
    + rewrite (count_eventFor_notin _ _ _ l) by exact Hq.
      change (omap (eventFor m) [(p, i)])
        with (omap (eventFor m) (option_list (Some (p, i)))).
      rewrite omap_option_list. simpl. lia.
    + rewrite IH by assumption.
      assert (q <> p) as Hne.
      { intros ->. apply Hq. apply list_elem_of_fmap. by exists (p, i). }
      rewrite (count_eventFor_notin _ _ _ [(q, j)]); [reflexivity|].
      simpl. by intros ->%list_elem_of_singleton.
Qed.

Lemma NoDup_fst_unique {A B : Type} (l : list (A * B)) a b1 b2 :
  NoDup l.*1 -> (a, b1) ∈ l -> (a, b2) ∈ l -> b1 = b2.
Proof.
  induction l as [|[a' b'] l IH]; intros Hnd H1 H2.
  - by apply elem_of_nil in H1.
  - rewrite fmap_cons in Hnd. cbn [fst] in Hnd.
    apply NoDup_cons in Hnd as [Ha Hnd].
    assert (forall b, (a', b) ∈ l -> False) as Hno.
    { intros b Hb. apply Ha. apply list_elem_of_fmap. by exists (a', b). }
    apply elem_of_cons in H1 as [H1|H1]; apply elem_of_cons in H2 as [H2|H2].
    + congruence.
    + injection H1 as -> ->. exfalso. eauto.
    + injection H2 as -> ->. exfalso. eauto.
    + auto.
Qed.

Lemma elem_of_matching pattern c p :
  p ∈ matching pattern c <-> touches pattern c p.
Proof.
  unfold matching, touches, fresh.
  rewrite elem_of_list_to_set, list_elem_of_fmap. split.
  - intros ([q i] & -> & Hin). apply list_elem_of_omap in Hin as ([q' oi] & Hin & Hf).
    simpl in Hf. destruct oi as [info|]; [|discriminate]. simpl in Hf.
    destruct (IsDir info) eqn:Hd; [discriminate|].
    destruct (matches pattern (Name info)) eqn:Hm; [|discriminate].
    injection Hf as -> ->. exists i. auto.
  - intros (info & Hin & Hd & Hm). exists (p, info). split; [reflexivity|].
    apply list_elem_of_omap. exists (p, Some info). split; [exact Hin|].
    simpl. by rewrite Hd, Hm.
Qed.

Lemma elem_of_fresh pattern c p info :
  (p, info) ∈ fresh pattern c
  <-> (p, Some info) ∈ c /\ IsDir info = false
      /\ matches pattern (Name info) = true.
Proof.
  unfold fresh. rewrite list_elem_of_omap. split.
  - intros ([q oi] & Hin & Hf). simpl in Hf.
    destruct oi as [info'|]; [|discriminate]. simpl in Hf.
    destruct (IsDir info') eqn:Hd; [discriminate|].
    destruct (matches pattern (Name info')) eqn:Hm; [|discriminate].
    injection Hf as -> ->. auto.
  - intros (Hin & Hd & Hm). exists (p, Some info). split; [exact Hin|].
    simpl. by rewrite Hd, Hm.
Qed.
End CountFacts.

(** ** The scan of the pluggable watcher *)

Section ScanFacts.
Context `{Platform}.

(** A scan that returns has consumed a traversal without nil metadata; its
    batch is the events of the first loop followed by the deletions, and it
    changes nothing in the watcher but the snapshot. *)
Lemma scan2_inv dw w evs dw' :
  scan2 dw w = Ret (evs, dw') ->
  exists c, scan dw w (path dw) = Ret c
    /\ Forall (fun pair : strFileInfo => pair.2 <> None) c
    /\ evs = st_changed (scanned dw c) ++ deletions (scanned dw c)
    /\ dw' = set_files dw (sweep (scanned dw c)).1.
Proof.
  unfold scan2. intros Hrun.
  apply bind_Ret in Hrun as (c & Hc & Hrun).
  apply bind_Ret in Hrun as (st & Hst & Hrun).
  exists c. split; [exact Hc|].
  assert (Forall (fun pair : strFileInfo => pair.2 <> None) c) as Hall.
  { apply Forall_forall. intros [p oi] Hin. simpl. intros ->.
    rewrite foldM_visit_nil in Hst by eauto. discriminate. }
  split; [exact Hall|].
  apply foldM_visit in Hst as ->. fold (scanned dw c) in Hrun.
  injection Hrun as <- <-. by rewrite sweep_events.
Qed.

Lemma scan2_total dw w c :
  scan dw w (path dw) = Ret c ->
  Forall (fun pair : strFileInfo => pair.2 <> None) c ->
  scan2 dw w
  = Ret (st_changed (scanned dw c) ++ deletions (scanned dw c),
         set_files dw (sweep (scanned dw c)).1).
Proof.
  intros Hc Hall. unfold scan2. rewrite Hc. simpl.
  rewrite foldM_visit_total by exact Hall. simpl.
  fold (scanned dw c). by rewrite sweep_events.
Qed.

Lemma scan2_nil dw w c p :
  scan dw w (path dw) = Ret c -> (p, None) ∈ c -> scan2 dw w = Panic.
Proof.
  intros Hc Hin. unfold scan2. rewrite Hc. simpl.
  rewrite foldM_visit_nil by eauto. reflexivity.
Qed.

Lemma scanned_touched dw c : st_touched (scanned dw c) = matching (Pattern dw) c.
Proof.
  unfold scanned, matching. rewrite noteAll_touched. simpl. set_solver.
Qed.

Lemma scanned_changed dw c :
  NoDup (fresh (Pattern dw) c).*1 ->
  st_changed (scanned dw c) = omap (eventFor (files dw)) (fresh (Pattern dw) c).
Proof. intros Hnd. unfold scanned. by rewrite noteAll_changed. Qed.

(** The snapshot after a scan, path by path. *)
Lemma scanned_sweep_dom dw c :
  dom (sweep (scanned dw c)).1 = matching (Pattern dw) c.
Proof.
  apply set_eq. intros p. rewrite elem_of_dom, sweep_lookup, scanned_touched.
  destruct (decide (p ∈ matching (Pattern dw) c)) as [Hp|Hp].
  - split; [done|]. intros _. apply elem_of_dom.
    unfold scanned. rewrite noteAll_dom. fold (matching (Pattern dw) c).
    set_solver.
  - split; [|done]. by intros [? ?].
Qed.
End ScanFacts.

(** ** Change detection, the snapshot, idempotence and deletions *)

Section DiffClaims.
Context `{Platform}.

(** C1 (change detection).  In a scan whose traversal meets every path
    once, an entry that the scan records (not a directory, name matching
    the pattern) and whose path is absent from the snapshot yields exactly
    one [Added] event and no [Changed] event; an entry whose path is in the
    snapshot yields no [Added] event, and one [Changed] event if its
    modification time is strictly after the stored one and none if it is
    equal or earlier. *)
Theorem scan2_change_detection dw w c evs dw' p info :
  scan dw w (path dw) = Ret c ->
  scan2 dw w = Ret (evs, dw') ->
  NoDup (fresh (Pattern dw) c).*1 ->
  (p, info) ∈ fresh (Pattern dw) c ->
  match files dw !! p with
  | None =>
      count_events Added p evs = 1%nat
      /\ mkEvent Added p info ∈ evs
      /\ count_events Changed p evs = 0%nat
  | Some oldInfo =>
      count_events Added p evs = 0%nat
      /\ count_events Changed p evs
         = (if ModTime oldInfo <? ModTime info then 1%nat else 0%nat)
      /\ (mkEvent Changed p info ∈ evs <-> ModTime oldInfo < ModTime info)
  end.
Proof.
  intros Hc Hrun Hnd Hin.
  apply scan2_inv in Hrun as (c' & Hc' & _ & -> & _).
  rewrite Hc in Hc'. injection Hc' as <-.
  rewrite scanned_changed by exact Hnd.
  assert (forall ty, ty <> Deleted ->
            count_events ty p
              (omap (eventFor (files dw)) (fresh (Pattern dw) c)
               ++ deletions (scanned dw c))
            = count_events ty p (option_list (eventFor (files dw) (p, info))))
    as Hcount.
  { intros ty Hty. rewrite count_events_app.
    rewrite (count_eventFor ty _ p info) by assumption.
    rewrite (count_events_other ty Deleted p (deletions (scanned dw c)))
      by (apply deletions_kinds || done).
    lia. }
  assert (forall e, e ∈ omap (eventFor (files dw)) (fresh (Pattern dw) c)
                    -> Path e = p -> eventFor (files dw) (p, info) = Some e)
    as Huniq.
  { intros e He Hp. apply list_elem_of_omap in He as ([q j] & Hq & Hev).
    pose proof (eventFor_Path _ _ _ Hev) as Hpath. simpl in Hpath.
    assert (q = p) as -> by congruence.
    assert (j = info) as ->; [|exact Hev].
    exact (NoDup_fst_unique _ _ _ _ Hnd Hq Hin). }
  rewrite !Hcount by discriminate. clear Hcount.
  assert (forall e, eventFor (files dw) (p, info) = Some e ->
            e ∈ omap (eventFor (files dw)) (fresh (Pattern dw) c)
                ++ deletions (scanned dw c)) as Hemit.
  { intros e He. apply elem_of_app. left. apply list_elem_of_omap.
    by exists (p, info). }
  destruct (files dw !! p) as [oldInfo|] eqn:Hold.
  - destruct (ModTime oldInfo <? ModTime info) eqn:Hlt.
    + rewrite (eventFor_newer _ _ _ _ Hold Hlt) in Huniq, Hemit |- *.
      apply Z.ltb_lt in Hlt. rewrite option_list_Some.
      rewrite count_events_hit, count_events_miss by discriminate.
      split; [reflexivity|]. split; [reflexivity|]. split; [done|].
      intros _. by apply Hemit.
    + rewrite (eventFor_not_newer _ _ _ _ Hold Hlt) in Huniq, Hemit |- *.
      apply Z.ltb_ge in Hlt. rewrite option_list_None.
      split; [reflexivity|]. split; [reflexivity|]. split; [|lia].
      intros He. apply elem_of_app in He as [He|He].
      * apply Huniq in He; [discriminate | reflexivity].
      * pose proof (deletions_kinds (scanned dw c)) as Hk.
        rewrite Forall_forall in Hk. specialize (Hk _ He). discriminate.
  - rewrite (eventFor_absent _ _ _ Hold) in Huniq, Hemit |- *.
    rewrite option_list_Some.
    rewrite count_events_hit, count_events_miss by discriminate.
    split; [reflexivity|]. split; [|reflexivity]. by apply Hemit.
Qed.
(** A scan changes nothing of the configuration. *)
Lemma scan2_config dw w evs dw' :
  scan2 dw w = Ret (evs, dw') ->
  scan dw' = scan dw /\ Pattern dw' = Pattern dw /\ path dw' = path dw.
Proof. intros (c & _ & _ & _ & ->)%scan2_inv. auto. Qed.

Lemma scans_config ws : forall dw bs dw',
  scans dw ws = Ret (bs, dw') ->
  scan dw' = scan dw /\ Pattern dw' = Pattern dw /\ path dw' = path dw.
Proof.
  induction ws as [|w ws IH]; intros dw bs dw' Hrun.
  - simpl in Hrun. injection Hrun as <- <-. auto.
  - simpl in Hrun. apply bind_Ret in Hrun as ([evs dw1] & H1 & Hrun).
    apply bind_Ret in Hrun as ([bs' dw2] & H2 & Hrun).
    simpl in H2, Hrun. injection Hrun as <- <-.
    apply scan2_config in H1 as (E1 & E2 & E3).
    destruct (IH _ _ _ H2) as (F1 & F2 & F3). simpl in *.
    repeat split; congruence.
Qed.

Lemma scans_snoc ws w : forall dw bs dw',
  scans dw (ws ++ [w]) = Ret (bs, dw') ->
  exists bs0 dw0 evs,
    scans dw ws = Ret (bs0, dw0) /\ scan2 dw0 w = Ret (evs, dw')
    /\ bs = bs0 ++ [evs].
Proof.
  induction ws as [|w0 ws IH]; intros dw bs dw' Hrun.
  - simpl in Hrun. apply bind_Ret in Hrun as ([evs dw1] & H1 & Hrun).
    simpl in Hrun. injection Hrun as <- <-. exists [], dw, evs. auto.
  - simpl in Hrun. apply bind_Ret in Hrun as ([evs0 dw1] & H1 & Hrun).
    apply bind_Ret in Hrun as ([bs' dw2] & H2 & Hrun).
    simpl in H2, Hrun. injection Hrun as <- <-.
    apply IH in H2 as (bs0 & dw0 & evs & Hws & Hw & ->).
    exists (evs0 :: bs0), dw0, evs. simpl. rewrite H1. simpl. rewrite Hws.
    auto.
Qed.

Lemma scan2_snapshot dw w c evs dw' :
  scan dw w (path dw) = Ret c ->
  scan2 dw w = Ret (evs, dw') ->
  dom (files dw') = matching (Pattern dw) c.
Proof.
  intros Hc (c' & Hc' & _ & _ & ->)%scan2_inv.
  rewrite Hc in Hc'. injection Hc' as <-. apply scanned_sweep_dom.
Qed.

(** C2 (snapshot invariant).  For every sequence of scans, when the last
    scan completes the snapshot holds exactly the paths for which that
    scan's traversal has an entry that is not a directory and whose name
    matches the pattern: nothing else is in it, and what stopped matching
    has been removed by that same scan. *)
Theorem snapshot_invariant dw ws w bs dw' :
  scans dw (ws ++ [w]) = Ret (bs, dw') ->
  exists c, scan dw w (path dw) = Ret c
    /\ forall p, p ∈ dom (files dw') <-> touches (Pattern dw) c p.
Proof.
  intros (bs0 & dw0 & evs & Hws & Hw & _)%scans_snoc.
  apply scans_config in Hws as (Hscan & Hpat & Hpath).
  pose proof Hw as (c & Hc & _)%scan2_inv. exists c.
  rewrite <- Hscan, <- Hpath, <- Hpat. split; [exact Hc|].
  intros p. rewrite (scan2_snapshot _ _ _ _ _ Hc Hw).
  apply elem_of_matching.
Qed.

(** C3 (idempotence).  A scan that follows a scan of the same, unchanged
    directory emits no event and leaves the snapshot, and the watcher, as
    they are. *)
Theorem scan2_idempotent dw w evs dw' :
  scan2 dw w = Ret (evs, dw') -> scan2 dw' w = Ret ([], dw').
Proof.
  intros Hrun. pose proof Hrun as (Hscan & Hpat & Hpath)%scan2_config.
  apply scan2_inv in Hrun as (c & Hc & Hall & _ & ->).
  set (st := scanned dw c) in *. set (dw1 := set_files dw (sweep st).1).
  assert (scan dw1 w (path dw1) = Ret c) as Hc1 by exact Hc.
  rewrite (scan2_total _ _ _ Hc1 Hall).
  assert (settled (files dw1) (fresh (Pattern dw) c)) as Hset.
  { intros p i Hin.
    destruct (noteAll_settled (fresh (Pattern dw) c)
                (mkScanState (files dw) [] ∅) p i Hin) as (j & Hj & Hle).
    exists j. split; [|exact Hle]. simpl. rewrite sweep_lookup.
    rewrite decide_True; [exact Hj|].
    unfold st. rewrite scanned_touched. apply elem_of_matching.
    apply elem_of_fresh in Hin as (? & ? & ?). exists i. auto. }
  assert (scanned dw1 c
          = mkScanState (files dw1) [] (matching (Pattern dw) c)) as Hst1.
  { unfold scanned. change (Pattern dw1) with (Pattern dw).
    rewrite noteAll_settled_id by exact Hset. f_equal.
    unfold matching. set_solver. }
  assert (dom (st_files (scanned dw1 c)) ⊆ st_touched (scanned dw1 c)) as Hsub.
  { rewrite Hst1. simpl. unfold st. by rewrite scanned_sweep_dom. }
  rewrite (deletions_nil _ Hsub), (sweep_dom _ Hsub), Hst1. reflexivity.
Qed.

(** C4 (deletions).  The batch of a scan is the events of the traversal
    followed by the deletions; a path that is in the snapshot before the
    scan and for which the traversal has no recorded entry (the file is
    gone, is now a directory, or its name no longer matches) gets exactly
    one [Deleted] event, carrying the stored record, and is no longer in
    the snapshot after the scan. *)
Theorem scan2_deletions dw w c evs dw' :
  scan dw w (path dw) = Ret c ->
  scan2 dw w = Ret (evs, dw') ->
  (exists changed dels,
      evs = changed ++ dels
      /\ Forall (fun e => Type_ e <> Deleted) changed
      /\ Forall (fun e => Type_ e = Deleted) dels)
  /\ forall p oldInfo,
       files dw !! p = Some oldInfo ->
       ~ touches (Pattern dw) c p ->
       count_events Deleted p evs = 1%nat
       /\ mkEvent Deleted p oldInfo ∈ evs
       /\ files dw' !! p = None.
Proof.
  intros Hc (c' & Hc' & _ & -> & ->)%scan2_inv.
  rewrite Hc in Hc'. injection Hc' as <-.
  destruct (noteAll_changed_kinds (fresh (Pattern dw) c)
              (mkScanState (files dw) [] ∅)) as (changed & Hch & Hkinds).
  simpl in Hch. fold (scanned dw c) in Hch.
  split.
  { exists changed, (deletions (scanned dw c)). rewrite Hch.
    split; [reflexivity|]. split; [exact Hkinds | apply deletions_kinds]. }
  intros p oldInfo Hold Hno.
  assert (p ∉ st_touched (scanned dw c)) as Hnt.
  { rewrite scanned_touched. by rewrite elem_of_matching. }
  assert (st_files (scanned dw c) !! p = Some oldInfo) as Hkeep.
  { unfold scanned. rewrite noteAll_files_notin; [exact Hold|].
    intros Hin. apply Hno. apply elem_of_matching.
    unfold matching. by apply elem_of_list_to_set. }
  split; [|split].
  - rewrite Hch, count_events_app.
    rewrite count_deleted_deletions, decide_True by eauto.
    assert (count_events Deleted p changed = 0%nat) as ->; [|reflexivity].
    unfold count_events.
    assert (filter (fun e => Type_ e = Deleted /\ Path e = p) changed = [])
      as ->; [|reflexivity].
    apply elem_of_nil_inv. intros e He.
    apply list_elem_of_filter in He as [[Hty _] He].
    rewrite Forall_forall in Hkinds. by apply (Hkinds e He).
  - apply elem_of_app. right. by apply elem_of_deletions.
  - simpl. rewrite sweep_lookup. by rewrite decide_False.
Qed.
End DiffClaims.

(** ** Observers and the life cycle *)

Section LifecycleClaims.
Context `{Platform}.

Lemma sends_foldl (evAt : EventsAt) (os : list Observer) : forall tr : trace,
  foldl (fun tr ch => tr ++ [(ch, evAt)]) tr os
  = tr ++ ((fun ch => (ch, evAt)) <$> os).
Proof.
  induction os as [|o os IH]; intros tr.
  - simpl. by rewrite app_nil_r.
  - simpl. rewrite IH. by rewrite <- app_assoc.
Qed.

Lemma notify_empty dw evAt tr : Events evAt = [] -> notify dw evAt tr = tr.
Proof. unfold notify. by intros ->. Qed.

Lemma notify_sends dw evAt tr :
  Events evAt <> [] ->
  notify dw evAt tr = tr ++ ((fun ch => (ch, evAt)) <$> observers dw).
Proof.
  unfold notify. intros Hne. destruct (Events evAt) as [|e evs]; [done|].
  simpl. apply sends_foldl.
Qed.

Lemma observers_AddObserver obs : forall dw,
  observers (foldl AddObserver dw obs) = observers dw ++ obs.
Proof.
  induction obs as [|o obs IH]; intros dw.
  - simpl. by rewrite app_nil_r.
  - simpl. rewrite IH. simpl. by rewrite <- app_assoc.
Qed.

(** C6 (notify).  On a watcher whose observers were registered one after
    the other, [notify] with a batch without events sends nothing, and with
    any other batch sends it once to every registered observer, the
    earlier registered first. *)
Theorem notify_contract dw obs evAt tr :
  notify (foldl AddObserver dw obs) evAt tr
  = match Events evAt with
    | [] => tr
    | _ :: _ => tr ++ ((fun ch => (ch, evAt)) <$> (observers dw ++ obs))
    end.
Proof.
  destruct (Events evAt) as [|e evs] eqn:Hev.
  - by apply notify_empty.
  - rewrite notify_sends by (rewrite Hev; discriminate).
    by rewrite observers_AddObserver.
Qed.

Lemma New_idle w p dw : New w p = inl dw -> Running dw = false.
Proof.
  unfold New. destruct (Stat w) as [stat|]; [|discriminate].
  destruct (negb (IsDir stat)); [discriminate|]. by intros [= <-].
Qed.

Lemma Stop_idle dw dw' : Stop dw = Ret dw' -> Running dw' = false.
Proof.
  unfold Stop. destruct (ticker dw); [|discriminate]. by intros [= <-].
Qed.

Lemma Inline_New_idle w p dw :
  Inline.New w p = inl dw -> Inline.Running dw = false.
Proof.
  unfold Inline.New. destruct (Stat w) as [stat|]; [|discriminate].
  destruct (negb (IsDir stat)); [discriminate|]. by intros [= <-].
Qed.

Lemma Inline_Stop_idle dw dw' :
  Inline.Stop dw = Ret dw' -> Inline.Running dw' = false.
Proof.
  unfold Inline.Stop. destruct (Inline.ticker dw); [|discriminate].
  by intros [= <-].
Qed.

(** C9 (Stop while idle).  In both variants, [Stop] on a watcher that is
    not running (its ticker is nil: never started, or stopped) dereferences
    the nil ticker and panics; nothing guards the call. *)
Theorem Stop_idle_panics (dw : directoryWatcher)
    (dwi : Inline.directoryWatcher) :
  Running dw = false -> Inline.Running dwi = false ->
  Stop dw = Panic /\ Inline.Stop dwi = Panic.
Proof.
  unfold Running, Inline.Running, Stop, Inline.Stop.
  destruct (ticker dw); [discriminate|].
  destruct (Inline.ticker dwi); [discriminate|]. auto.
Qed.

(** On an empty snapshot every recorded entry is reported as added. *)
Lemma scanned_empty dw c :
  files dw = ∅ -> NoDup (fresh (Pattern dw) c).*1 ->
  st_changed (scanned dw c) ++ deletions (scanned dw c)
  = (fun pi => mkEvent Added pi.1 pi.2) <$> fresh (Pattern dw) c.
Proof.
  intros Hempty Hnd. rewrite deletions_nil.
  - rewrite app_nil_r, scanned_changed by exact Hnd. rewrite Hempty.
    induction (fresh (Pattern dw) c) as [|[p i] l IH]; [reflexivity|].
    rewrite fmap_cons in Hnd. apply NoDup_cons in Hnd as [_ Hnd].
    csimpl. unfold eventFor at 1. simpl. rewrite lookup_empty.
    by rewrite IH.
  - rewrite scanned_touched. unfold scanned. rewrite noteAll_dom. simpl.
    rewrite Hempty, dom_empty_L. unfold matching. set_solver.
Qed.

(** C5 (preload).  [Start] on a watcher that is not running performs one
    scan with the scanner the [Recursive] flag selects, and the watcher it
    leaves holds the snapshot of that scan.  With [Preload] nothing is
    sent, whatever the scan found.  Without [Preload] the batch of the scan
    goes through [notify]: when it has events every observer receives it,
    in order.  When the snapshot was empty and the traversal meets every
    path once, that batch is one [Added] event for each of the N recorded
    files. *)
Theorem Start_preload dw w now dw' tr :
  ticker dw = None ->
  Start dw w now = Ret (dw', tr) ->
  let dw0 := if Recursive dw then set_scan dw recScanner else dw in
  exists batch dw1,
    scan2 dw0 w = Ret (batch, dw1)
    /\ files dw' = files dw1
    /\ Running dw' = true
    /\ (Preload dw = true -> tr = [])
    /\ (Preload dw = false ->
        tr = match batch with
             | [] => []
             | _ :: _ => (fun ch => (ch, mkEventsAt now batch)) <$> observers dw
             end)
    /\ (files dw = ∅ ->
        forall c, scan dw0 w (path dw) = Ret c ->
          NoDup (fresh (Pattern dw) c).*1 ->
          batch = (fun pi => mkEvent Added pi.1 pi.2) <$> fresh (Pattern dw) c).
Proof.
  intros Hidle Hstart dw0. unfold Start in Hstart. rewrite Hidle in Hstart.
  fold dw0 in Hstart.
  apply bind_Ret in Hstart as ([batch dw1] & Hscan & Hstart).
  apply bind_Ret in Hstart as (t & Ht & Hstart).
  cbn [fst snd] in Hstart. injection Hstart as <- <-.
  exists batch, dw1. split; [exact Hscan|]. split; [reflexivity|].
  split; [reflexivity|].
  pose proof Hscan as (c & Hc & Hall & Hevs & Hdw1)%scan2_inv.
  assert (Preload dw1 = Preload dw /\ observers dw1 = observers dw
          /\ Pattern dw0 = Pattern dw /\ path dw0 = path dw
          /\ files dw0 = files dw) as (Hpre & Hobs & Hpat & Hpath & Hfiles).
  { subst dw1. unfold dw0. destruct (Recursive dw); simpl; auto. }
  rewrite Hpre. split; [|split].
  - by intros ->.
  - intros ->. destruct batch as [|e batch].
    + by rewrite notify_empty.
    + rewrite notify_sends by discriminate. by rewrite Hobs.
  - intros Hempty c' Hc' Hnd. rewrite Hpath in Hc. rewrite Hc in Hc'.
    injection Hc' as <-. rewrite Hevs.
    rewrite <- Hpat in Hnd |- *. apply scanned_empty; [|exact Hnd].
    by rewrite Hfiles.
Qed.

(** [Start] returns when the traversal meets no entry without metadata and
    the interval gives a positive duration. *)
Lemma Start_total dw w now c :
  ticker dw = None ->
  (if Recursive dw then recScanner else scan dw) w (path dw) = Ret c ->
  Forall (fun pair : strFileInfo => pair.2 <> None) c ->
  0 < int64 (int64 (Interval dw) * Millisecond) ->
  exists dw' tr, Start dw w now = Ret (dw', tr).
Proof.
  intros Hidle Hc Hall Hpos. unfold Start. rewrite Hidle.
  set (dw0 := if Recursive dw then set_scan dw recScanner else dw).
  assert (scan dw0 w (path dw0) = Ret c) as Hc0.
  { unfold dw0. destruct (Recursive dw); exact Hc. }
  rewrite (scan2_total _ _ _ Hc0 Hall). simpl.
  assert (Interval dw0 = Interval dw) as ->
    by (unfold dw0; by destruct (Recursive dw)).
  unfold NewTicker. destruct (_ <=? 0) eqn:Hle; [lia|]. simpl. eauto.
Qed.
End LifecycleClaims.

(** ** The two recursive traversals *)

Lemma node_nested_ind (P : node -> Prop) :
  (forall name, P (Missing name)) ->
  (forall name size mtime, P (File name size mtime)) ->
  (forall name size mtime, P (Dir name size mtime None)) ->
  (forall name size mtime kids,
      Forall P kids -> P (Dir name size mtime (Some kids))) ->
  forall n, P n.
Proof.
  intros HM HF HN HD. fix IH 1.
  intros [name|name size mtime|name size mtime [kids|]].
  - apply HM.
  - apply HF.
  - apply HD. induction kids as [|k kids IHkids]; constructor.
    + apply IH.
    + exact IHkids.
  - apply HN.
Qed.

Section WalkFacts.
Context `{Platform}.

Lemma Lstat_Name n info : Lstat n = Some info -> Name info = node_name n.
Proof. destruct n; simpl; [discriminate | | ]; by intros [= <-]. Qed.

Lemma Lstat_IsDir_File name size mtime info :
  Lstat (File name size mtime) = Some info -> IsDir info = false.
Proof. by intros [= <-]. Qed.

Lemma noteAll_app st l1 l2 :
  noteAll st (l1 ++ l2) = noteAll (noteAll st l1) l2.
Proof. apply foldl_app. Qed.

Lemma walkEntries_nil {S : Type} (fn : WalkFunc (S := S)) rec p s :
  walkEntries fn rec p [] s = Ret (s, None).
Proof. reflexivity. Qed.

Lemma walkEntries_agree pattern p (ks : list node) :
  Forall (fun k => readable k = true ->
                   forall q, agree_on pattern (walk sendFn q k)
                               (walk (Inline.walkFn pattern) q k)) ks ->
  forallb readable ks = true ->
  agree_on pattern (walkEntries sendFn (walk sendFn) p ks)
    (walkEntries (Inline.walkFn pattern) (walk (Inline.walkFn pattern)) p ks).
Proof.
  induction ks as [|k ks IH]; intros Hks Hread.
  - exists [], None. split.
    + intros acc. simpl. by rewrite app_nil_r.
    + left. split; [reflexivity|]. split; [constructor|]. reflexivity.
  - apply Forall_cons in Hks as [Hk Hks].
    simpl in Hread. apply andb_prop in Hread as [Hrk Hrks].
    specialize (IH Hks Hrks).
    destruct (Lstat k) as [fileInfo|] eqn:Hstat.
    + destruct (Hk Hrk (Join p (node_name k))) as (L1 & e1 & Hsent1 & Hcase1).
      destruct Hcase1 as [(-> & Hall1 & Hwalk1)|(-> & Hnil1 & Hwalk1)].
      * destruct IH as (L2 & e2 & Hsent2 & Hcase2).
        exists (L1 ++ L2), e2. split.
        { intros acc. simpl. rewrite Hstat, Hsent1. simpl.
          rewrite Hsent2. by rewrite app_assoc. }
        destruct Hcase2 as [(-> & Hall2 & Hwalk2)|(-> & Hnil2 & Hwalk2)].
        -- left. split; [reflexivity|]. split; [by apply Forall_app|].
           intros st. simpl. rewrite Hstat, Hwalk1. simpl. rewrite Hwalk2.
           by rewrite fresh_app, noteAll_app.
        -- right. split; [reflexivity|]. split.
           ++ destruct Hnil2 as [q Hq]. exists q. apply elem_of_app. by right.
           ++ intros st. simpl. rewrite Hstat, Hwalk1. simpl. apply Hwalk2.
      * exists L1, (Some PathError). split.
        { intros acc. simpl. rewrite Hstat, Hsent1. simpl.
          by rewrite orb_true_r. }
        right. split; [reflexivity|]. split; [exact Hnil1|].
        intros st. simpl. by rewrite Hstat, Hwalk1.
    + exists [(Join p (node_name k), None)], (Some PathError). split.
      { intros acc. simpl. by rewrite Hstat. }
      right. split; [reflexivity|]. split.
      * eexists. by left.
      * intros st. simpl. by rewrite Hstat.
Qed.

(** On a tree whose directories can all be read, the walk of [scan1] and the
    walk of [recScanner] agree. *)
Lemma walk_agree pattern : forall n,
  readable n = true ->
  forall p, agree_on pattern (walk sendFn p n)
              (walk (Inline.walkFn pattern) p n).
Proof.
  induction n as [name|name size mtime|name size mtime|name size mtime kids IH]
    using node_nested_ind; intros Hread p.
  - exists [(p, None)], (Some PathError). split; [reflexivity|].
    right. split; [reflexivity|]. split; [|reflexivity].
    eexists. by left.
  - exists [(p, Some (mkFileInfo name size mtime false))], None.
    split; [reflexivity|]. left. split; [reflexivity|]. split.
    + by repeat constructor.
    + intros st. rewrite fresh_cons_Some. simpl.
      destruct (negb (matches pattern name)); reflexivity.
  - discriminate.
  - simpl in Hread.
    destruct (walkEntries_agree pattern p kids IH Hread)
      as (L & e & Hsent & Hcase).
    exists ((p, Some (mkFileInfo name size mtime true)) :: L), e. split.
    { intros acc. simpl. rewrite Hsent. by rewrite <- app_assoc. }
    destruct Hcase as [(-> & Hall & Hwalk)|(-> & Hnil & Hwalk)].
    + left. split; [reflexivity|]. split; [by constructor|].
      intros st. rewrite fresh_cons_Some. simpl. by rewrite Hwalk.
    + right. split; [reflexivity|]. split.
      * destruct Hnil as [q Hq]. exists q. by right.
      * intros st. simpl. apply Hwalk.
Qed.

(** The same for [filepath.Walk] from the watched path: [recScanner] sends
    [L], and [scan1] has recorded [L] or panics with [scan2]. *)
Lemma Walk_agree pattern w p :
  readable w = true ->
  exists L, recScanner w p = Ret L
    /\ ((Forall (fun pair : strFileInfo => pair.2 <> None) L
         /\ forall st, (r ← Walk (Inline.walkFn pattern) p w st; Ret r.1)
                       = Ret (noteAll st (fresh pattern L)))
        \/ ((exists q, (q, None) ∈ L)
            /\ forall st, (r ← Walk (Inline.walkFn pattern) p w st; Ret r.1)
                          = Panic)).
Proof.
  intros Hread.
  destruct (walk_agree pattern w Hread p) as (L & e & Hsent & Hcase).
  exists L. unfold recScanner, Walk.
  destruct (Lstat w) as [info|] eqn:Hstat.
  - rewrite Hsent. split.
    { destruct Hcase as [(-> & _)|(-> & _)]; reflexivity. }
    destruct Hcase as [(-> & Hall & Hwalk)|(-> & Hnil & Hwalk)].
    + left. split; [exact Hall|]. intros st. by rewrite Hwalk.
    + right. split; [exact Hnil|]. intros st. by rewrite Hwalk.
  - destruct w; try discriminate. simpl in Hsent, Hcase |- *.
    specialize (Hsent []). injection Hsent as <- <-. split; [reflexivity|].
    right. split; [|reflexivity]. eexists. by left.
Qed.
End WalkFacts.

(** ** The two variants *)

Section VariantClaims.
Context `{Platform}.

Lemma matches_star k :
  Match "*" (node_name k) = Some true -> matches "*" (node_name k) = true.
Proof. unfold matches. by intros ->. Qed.

Lemma globScanner_cons q (k : node) (l : list (string * node)) :
  omap (fun pk : string * node =>
          info ← Stat pk.2; Some (wrapFn pk.1 (Some info))) ((q, k) :: l)
  = match Lstat k with
    | Some info => [(q, Some info)]
    | None => []
    end
    ++ omap (fun pk : string * node =>
               info ← Stat pk.2; Some (wrapFn pk.1 (Some info))) l.
Proof. csimpl. unfold Stat. by destruct (Lstat k). Qed.

Lemma globStep_cons st q (k : node) (l : list (string * node)) :
  foldl Inline.globStep st ((q, k) :: l)
  = foldl Inline.globStep
      match Lstat k with
      | Some info => if IsDir info then st else note st q info
      | None => st
      end l.
Proof. simpl. unfold Inline.globStep at 2, Stat. simpl. by destruct (Lstat k). Qed.

(** The loop of [scan1] over [filepath.Glob] of the pattern records what
    [scan2] records from the pairs [globScanner] sends. *)
Lemma glob_agree pattern p (ks : list node) : forall st,
  Forall (fun k => Match "*" (node_name k) = Some true) ks ->
  foldl Inline.globStep st
    ((fun k => (Join p (node_name k), k))
       <$> filter (fun k => matches pattern (node_name k)) ks)
  = noteAll st
      (fresh pattern
         (omap (fun pk : string * node =>
                  info ← Stat pk.2; Some (wrapFn pk.1 (Some info)))
            ((fun k => (Join p (node_name k), k))
               <$> filter (fun k => matches "*" (node_name k)) ks))).
Proof.
  induction ks as [|k ks IH]; intros st Hstar; [reflexivity|].
  apply Forall_cons in Hstar as [Hk Hstar].
  rewrite (filter_cons_True (fun k => matches "*" (node_name k)))
    by (rewrite matches_star by exact Hk; exact I).
  rewrite (fmap_cons _ k), globScanner_cons, fresh_app.
  destruct (matches pattern (node_name k)) eqn:Hm.
  - rewrite filter_cons_True by (rewrite Hm; exact I).
    rewrite fmap_cons, globStep_cons.
    destruct (Lstat k) as [info|] eqn:Hstat.
    + rewrite fresh_cons_Some, (Lstat_Name _ _ Hstat), Hm, orb_false_r.
      rewrite IH by exact Hstar. destruct (IsDir info); reflexivity.
    + by rewrite IH.
  - rewrite filter_cons_False by (rewrite Hm; exact id).
    destruct (Lstat k) as [info|] eqn:Hstat.
    + rewrite fresh_cons_Some, (Lstat_Name _ _ Hstat), Hm, orb_true_r.
      by rewrite IH.
    + by rewrite IH.
Qed.

(** A pattern without separator is its own single segment. *)
Lemma splitSegments_noSeparator s :
  noSeparator s = true -> splitSegments s = (s, []).
Proof.
  induction s as [|c s IH]; [reflexivity|]. simpl. intros Hs.
  apply andb_true_iff in Hs as [Hc Hs]. apply negb_true_iff in Hc.
  apply bool_decide_eq_false in Hc. rewrite decide_False by exact Hc.
  by rewrite (IH Hs).
Qed.

Lemma segments_noSeparator s : noSeparator s = true -> segments s = [s].
Proof. intros Hs. unfold segments. by rewrite splitSegments_noSeparator. Qed.

(** [filepath.Glob] of the watched path joined with a pattern without
    separator: with a metacharacter it lists the watched directory, without
    one it looks the name up. *)
Lemma GlobPath_meta w p pat :
  noSeparator pat = true -> hasMeta pat = true ->
  GlobPath w p pat = Glob w p pat.
Proof.
  intros Hs Hm. unfold GlobPath. rewrite segments_noSeparator by exact Hs.
  simpl. rewrite Hm. simpl. unfold globAll. simpl. apply app_nil_r.
Qed.

Lemma GlobPath_literal w p pat :
  noSeparator pat = true -> hasMeta pat = false ->
  GlobPath w p pat
  = match head (filter (fun k => node_name k = pat) (children w)) with
    | Some k => match Lstat k with
                | Some _ => [(Join p pat, k)]
                | None => []
                end
    | None => []
    end.
Proof.
  intros Hs Hm. unfold GlobPath. rewrite segments_noSeparator by exact Hs.
  simpl. rewrite Hm. unfold entryNamed. simpl.
  by destruct (head _).
Qed.

Lemma filter_literal pat (ks : list node) :
  Forall (fun k => Match pat (node_name k)
                   = Some (bool_decide (pat = node_name k))) ks ->
  filter (fun k => matches pat (node_name k)) ks
  = filter (fun k => node_name k = pat) ks.
Proof.
  induction ks as [|k ks IH]; intros Hlit; [reflexivity|].
  apply Forall_cons in Hlit as [Hk Hlit].
  destruct (decide (node_name k = pat)) as [Heq|Hne].
  - rewrite (filter_cons_True (fun k => node_name k = pat)) by exact Heq.
    rewrite filter_cons_True.
    + by rewrite IH.
    + unfold matches. rewrite Hk. rewrite bool_decide_eq_true_2 by done. exact I.
  - rewrite (filter_cons_False (fun k => node_name k = pat)) by exact Hne.
    rewrite filter_cons_False.
    + by rewrite IH.
    + unfold matches. rewrite Hk. rewrite bool_decide_eq_false_2 by done. exact id.
Qed.

Lemma filter_name_once pat (ks : list node) :
  NoDup (node_name <$> ks) ->
  filter (fun k => node_name k = pat) ks = []
  \/ exists k, filter (fun k => node_name k = pat) ks = [k] /\ node_name k = pat.
Proof.
  induction ks as [|k ks IH]; intros Hnd; [by left|].
  rewrite fmap_cons in Hnd. apply NoDup_cons in Hnd as [Hk Hnd].
  destruct (decide (node_name k = pat)) as [Heq|Hne].
  - right. exists k. split; [|exact Heq]. rewrite filter_cons_True by exact Heq.
    f_equal. apply elem_of_nil_inv. intros k' Hin.
    apply list_elem_of_filter in Hin as [Hn Hin]. apply Hk.
    apply list_elem_of_fmap. exists k'. split; [congruence | exact Hin].
  - rewrite filter_cons_False by exact Hne. by apply IH.
Qed.


Lemma globStep_literal pat p (ks : list node) st :
  NoDup (node_name <$> ks) ->
  foldl Inline.globStep st
    match head (filter (fun k => node_name k = pat) ks) with
    | Some k => match Lstat k with
                | Some _ => [(Join p pat, k)]
                | None => []
                end
    | None => []
    end
  = foldl Inline.globStep st
      ((fun k => (Join p (node_name k), k))
         <$> filter (fun k => node_name k = pat) ks).
Proof.
  intros Hnd. destruct (filter_name_once pat ks Hnd) as [->|(k & -> & Hk)];
    [reflexivity|].
  cbn [head fmap list_fmap]. rewrite Hk, globStep_cons.
  destruct (Lstat k) as [info|] eqn:Hstat; [|reflexivity].
  rewrite globStep_cons, Hstat. reflexivity.
Qed.

(** The loop of [scan1] over [filepath.Glob] of the watched path joined with
    a pattern for the entries of the watched directory records what [scan2]
    records from the pairs [globScanner] sends. *)
Lemma GlobPath_agree pattern p w st :
  entryPattern pattern = true ->
  NoDup (node_name <$> children w) ->
  Forall (fun k => Match "*" (node_name k) = Some true) (children w) ->
  (hasMeta pattern = false ->
   Forall (fun k => Match pattern (node_name k)
                    = Some (bool_decide (pattern = node_name k)))
          (children w)) ->
  foldl Inline.globStep st (GlobPath w p pattern)
  = noteAll st
      (fresh pattern
         (omap (fun pk : string * node =>
                  info ← Stat pk.2; Some (wrapFn pk.1 (Some info)))
            (Glob w p "*"))).
Proof.
  intros Hpat Hnd Hstar Hlit. unfold Glob at 1.
  rewrite <- glob_agree by exact Hstar.
  assert (noSeparator pattern = true) as Hsep.
  { unfold entryPattern in Hpat. by repeat apply andb_true_iff in Hpat as [Hpat _]. }
  destruct (hasMeta pattern) eqn:Hm.
  - by rewrite GlobPath_meta.
  - rewrite GlobPath_literal, globStep_literal by done.
    by rewrite filter_literal by auto.
Qed.

(** What the first loops of the two scans do from the same snapshot: the
    scanner of [scan2] sends [c], and [scan1] panics if [c] has a pair
    without metadata and otherwise sweeps the state that [scan2] reaches
    from [c]. *)
Lemma variants_first_loop (dwi : Inline.directoryWatcher) (w : node) :
  (if Inline.Recursive dwi then readable w = true
   else entryPattern (Inline.Pattern dwi) = true
        /\ NoDup (node_name <$> children w)
        /\ Forall (fun k => Match "*" (node_name k) = Some true) (children w)
        /\ (hasMeta (Inline.Pattern dwi) = false ->
            Forall (fun k => Match (Inline.Pattern dwi) (node_name k)
                             = Some (bool_decide
                                       (Inline.Pattern dwi = node_name k)))
                   (children w))) ->
  exists c,
    scan (pluggable_of dwi) w (Inline.path dwi) = Ret c
    /\ ((Forall (fun pair : strFileInfo => pair.2 <> None) c
         /\ Inline.scan1 dwi w
            = Ret ((sweep (scanned (pluggable_of dwi) c)).2,
                   Inline.set_files dwi
                     (sweep (scanned (pluggable_of dwi) c)).1))
        \/ ((exists q, (q, None) ∈ c) /\ Inline.scan1 dwi w = Panic)).
Proof.
  destruct dwi as [interval recursive pattern p fs tk obs preload].
  unfold Inline.scan1, pluggable_of, scanned. cbn [Inline.Recursive
    Inline.Pattern Inline.path Inline.files scan path files Pattern].
  destruct recursive; intros Hyp.
  - destruct (Walk_agree pattern w p Hyp) as (L & HL & Hcase).
    exists L. split; [exact HL|].
    destruct Hcase as [(Hall & Hwalk)|(Hnil & Hwalk)].
    + left. split; [exact Hall|]. by rewrite Hwalk.
    + right. split; [exact Hnil|]. by rewrite Hwalk.
  - destruct Hyp as (Hpat & Hnd & Hstar & Hlit).
    eexists. split; [reflexivity|]. left. split.
    + apply Forall_forall. intros [q oi] Hin.
      apply list_elem_of_omap in Hin as ([q' k] & _ & Hf). simpl in Hf.
      destruct (Stat k); [|discriminate]. by injection Hf as <- <-.
    + by rewrite GlobPath_agree.
Qed.

(** C10 (nil metadata).  A watched directory that lists an entry which can
    no longer be stat-ed is a state in which the recursive traversal is
    called back with an error and nil metadata: [recScanner] forwards the
    pair all the same, and the scan of either variant dereferences the nil
    metadata and panics. *)
Theorem nil_metadata_reachable (dw : directoryWatcher)
    (dwi : Inline.directoryWatcher) :
  scan dw = recScanner -> Inline.Recursive dwi = true ->
  exists w : node,
    (exists c q, scan dw w (path dw) = Ret c /\ (q, None) ∈ c)
    /\ scan2 dw w = Panic
    /\ Inline.scan1 dwi w = Panic.
Proof.
  intros Hscan Hrec. exists (Dir "d" 0 0 (Some [Missing "gone"])).
  assert (scan dw (Dir "d" 0 0 (Some [Missing "gone"])) (path dw)
          = Ret [(path dw, Some (mkFileInfo "d" 0 0 true));
                 (Join (path dw) "gone", None)]) as Hc
    by (rewrite Hscan; reflexivity).
  split; [|split].
  - eexists _, _. split; [exact Hc|]. right. by left.
  - eapply scan2_nil; [exact Hc|]. right. by left.
  - unfold Inline.scan1. rewrite Hrec. reflexivity.
Qed.
End VariantClaims.

(** ** The two variants, whatever the order of the map *)

Section OrderFacts.
Context (P1 P2 : Platform).

(** The snapshot after the sweep does not depend on the order in which the
    map is visited, and the deletions depend on it by their order only. *)
Lemma sweep_files_order st : (sweep (H := P1) st).1 = (sweep (H := P2) st).1.
Proof. apply map_eq. intros p. by rewrite !sweep_lookup. Qed.

Lemma deletions_order st : deletions (H := P1) st ≡ₚ deletions (H := P2) st.
Proof.
  unfold deletions. apply fmap_Permutation.
  by rewrite (range_perm (Platform := P1)), (range_perm (Platform := P2)).
Qed.
End OrderFacts.

(** C8, amended (the two variants).  Take two runs whose [filepath.Match]
    and [filepath.Join] are the same and whose maps may be visited in
    different orders.  In recursive mode, when every directory of the tree
    can be read; in non-recursive mode, when the watched path has no
    metacharacter, the pattern is a pattern for the entries of the watched
    directory (no separator, not empty, not [.] or [..]), the entries have
    distinct names that [*] matches, and a pattern without metacharacter
    matches its own name only, below a directory that is listed: [scan1] and
    [scan2] with the scanner that the [Recursive] flag selects behave alike
    from the same snapshot.  Both panic, at an entry without metadata, or
    both return the same snapshot, and batches with the same [Added] and
    [Changed] events in the same order followed by the same [Deleted]
    events, each in the order of its own map. *)
Theorem scan_variants_agree (P1 P2 : Platform)
    (dwi : Inline.directoryWatcher) (w : node) :
  Match (Platform := P1) = Match (Platform := P2) ->
  Join (Platform := P1) = Join (Platform := P2) ->
  (if Inline.Recursive dwi then readable w = true
   else hasMeta (Inline.path dwi) = false
        /\ entryPattern (Inline.Pattern dwi) = true
        /\ NoDup (node_name <$> children w)
        /\ Forall (fun k => Match (Platform := P1) "*" (node_name k) = Some true)
                  (children w)
        /\ (hasMeta (Inline.Pattern dwi) = false ->
            listed w = true
            /\ Forall (fun k => Match (Platform := P1) (Inline.Pattern dwi)
                                      (node_name k)
                                = Some (bool_decide
                                          (Inline.Pattern dwi = node_name k)))
                      (children w))) ->
  same_up_to_order
    (Inline.scan1 (H := P1) dwi w)
    (scan2 (H := P2) (pluggable_of (H := P2) dwi) w).
Proof.
  intros HM HJ Hyp.
  destruct P1 as [M1 J1 r1 p1], P2 as [M2 J2 r2 p2].
  cbn [Match Join] in HM, HJ, Hyp. subst M2 J2.
  set (PA := {| Match := M1; Join := J1; range := r1; range_perm := p1 |}).
  set (PB := {| Match := M1; Join := J1; range := r2; range_perm := p2 |}).
  destruct (variants_first_loop (H := PA) dwi w) as (c & Hc & Hcase).
  { destruct (Inline.Recursive dwi); [exact Hyp|].
    destruct Hyp as (_ & Hpat & Hnd & Hstar & Hlit).
    repeat (split; [assumption|]). intros Hm. by apply Hlit. }
  assert (scan (pluggable_of (H := PB) dwi) w
               (path (pluggable_of (H := PB) dwi)) = Ret c) as Hc' by exact Hc.
  destruct Hcase as [(Hall & ->)|([q Hnil] & ->)].
  - rewrite (scan2_total (H := PB) _ w c Hc' Hall), sweep_events.
    change (scanned (H := PA) (pluggable_of (H := PA) dwi) c)
      with (scanned (H := PB) (pluggable_of (H := PB) dwi) c).
    set (st := scanned (H := PB) (pluggable_of (H := PB) dwi) c).
    split.
    + exists (st_changed st), (deletions (H := PA) st), (deletions (H := PB) st).
      split; [reflexivity|]. split; [reflexivity|]. split; [|split].
      * destruct (noteAll_changed_kinds
                    (fresh (H := PB) (Inline.Pattern dwi) c)
                    (mkScanState (Inline.files dwi) [] ∅)) as (evs & Hevs & Hk).
        subst st. unfold scanned. cbn [files Pattern pluggable_of].
        rewrite Hevs. exact Hk.
      * apply deletions_kinds.
      * apply deletions_order.
    + cbn [Inline.files Inline.set_files files set_files].
      apply sweep_files_order.
  - rewrite (scan2_nil (H := PB) _ w c q Hc' Hnil). exact I.
Qed.

(** ** The properties on the worked examples *)

Ltac by_evaluation := vm_compute; reflexivity.
Ltac by_decision := apply (bool_decide_unpack _); vm_compute; exact I.

Lemma exWatcher_traversal :
  scan exWatcher exTree (path exWatcher) = Ret exTraversal.
Proof. by_evaluation. Defined.

Lemma exWatcher_scan :
  scan2 (H := testPlatform) exWatcher exTree = Ret (exBatch, exAfter).
Proof. by_evaluation. Defined.

Lemma exWatcher_fresh :
  fresh (H := testPlatform) (Pattern exWatcher) exTraversal
  = [("d/a.txt", exInfoA)].
Proof. by_evaluation. Defined.

(** C1 on the example: [a.txt] is in the snapshot with an earlier
    modification time, so it gets one [Changed] event and no [Added] one. *)
Lemma scan2_change_detection_witness :
  scan2 (H := testPlatform) exWatcher exTree = Ret (exBatch, exAfter)
  /\ count_events Added "d/a.txt" exBatch = 0%nat
  /\ count_events Changed "d/a.txt" exBatch = 1%nat
  /\ (mkEvent Changed "d/a.txt" exInfoA ∈ exBatch <-> 90 < 100).
Proof.
  split; [exact exWatcher_scan|].
  apply (scan2_change_detection (H := testPlatform) exWatcher exTree
           exTraversal exBatch exAfter "d/a.txt" exInfoA).
  - exact exWatcher_traversal.
  - exact exWatcher_scan.
  - rewrite exWatcher_fresh. by_decision.
  - rewrite exWatcher_fresh. by_decision.
Defined.

(** C2 on the example: after the scan the snapshot holds the paths of the
    traversal that are files matching [*.txt]. *)
Lemma snapshot_invariant_witness :
  scans (H := testPlatform) exWatcher ([] ++ [exTree])
  = Ret ([exBatch], exAfter)
  /\ exists c, scan exWatcher exTree (path exWatcher) = Ret c
       /\ forall p, p ∈ dom (files exAfter)
                    <-> touches (H := testPlatform) (Pattern exWatcher) c p.
Proof.
  split; [by_evaluation|].
  apply (snapshot_invariant (H := testPlatform) exWatcher [] exTree
           [exBatch] exAfter).
  by_evaluation.
Defined.

(** C3 on the example: a second scan of the same tree. *)
Lemma scan2_idempotent_witness :
  scan2 (H := testPlatform) exWatcher exTree = Ret (exBatch, exAfter)
  /\ scan2 (H := testPlatform) exAfter exTree = Ret ([], exAfter).
Proof.
  split; [exact exWatcher_scan|].
  apply (scan2_idempotent (H := testPlatform) exWatcher exTree exBatch exAfter).
  exact exWatcher_scan.
Defined.

Lemma exWatcher_untouched :
  ~ touches (H := testPlatform) (Pattern exWatcher) exTraversal "d/z.txt".
Proof.
  intros Hz. apply elem_of_matching in Hz. revert Hz.
  unfold matching. rewrite exWatcher_fresh. by_decision.
Defined.

(** C4 on the example: [z.txt] is in the snapshot and not in the directory;
    the batch ends with its one [Deleted] event. *)
Lemma scan2_deletions_witness :
  (exists changed dels,
      exBatch = changed ++ dels
      /\ Forall (fun e => Type_ e <> Deleted) changed
      /\ Forall (fun e => Type_ e = Deleted) dels)
  /\ forall p oldInfo,
       files exWatcher !! p = Some oldInfo ->
       ~ touches (H := testPlatform) (Pattern exWatcher) exTraversal p ->
       count_events Deleted p exBatch = 1%nat
       /\ mkEvent Deleted p oldInfo ∈ exBatch
       /\ files exAfter !! p = None.
Proof.
  apply (scan2_deletions (H := testPlatform) exWatcher exTree exTraversal
           exBatch exAfter).
  - exact exWatcher_traversal.
  - exact exWatcher_scan.
Defined.

(** C5 on the example: a new watcher without [Preload] finds one file and
    sends the batch with its [Added] event to both observers. *)
Lemma Start_preload_witness :
  Start (H := testPlatform) exNew exTree 7
  = Ret (exStarted,
         [(1%nat, mkEventsAt 7 [mkEvent Added "d/a.txt" exInfoA]);
          (2%nat, mkEventsAt 7 [mkEvent Added "d/a.txt" exInfoA])])
  /\ exists batch dw1,
       scan2 (H := testPlatform) exNew exTree = Ret (batch, dw1)
       /\ files exStarted = files dw1
       /\ Running exStarted = true
       /\ (Preload exNew = true ->
           [(1%nat, mkEventsAt 7 [mkEvent Added "d/a.txt" exInfoA]);
            (2%nat, mkEventsAt 7 [mkEvent Added "d/a.txt" exInfoA])] = [])
       /\ (Preload exNew = false ->
           [(1%nat, mkEventsAt 7 [mkEvent Added "d/a.txt" exInfoA]);
            (2%nat, mkEventsAt 7 [mkEvent Added "d/a.txt" exInfoA])]
           = match batch with
             | [] => []
             | _ :: _ =>
                 (fun ch => (ch, mkEventsAt 7 batch)) <$> observers exNew
             end)
       /\ (files exNew = ∅ ->
           forall c, scan exNew exTree (path exNew) = Ret c ->
             NoDup (fresh (H := testPlatform) (Pattern exNew) c).*1 ->
             batch = (fun pi => mkEvent Added pi.1 pi.2)
                       <$> fresh (H := testPlatform) (Pattern exNew) c).
Proof.
  split; [by_evaluation|].
  apply (Start_preload (H := testPlatform) exNew exTree 7 exStarted).
  - reflexivity.
  - by_evaluation.
Defined.

(** C9 on the example: a watcher that was never started, in each variant. *)
Lemma Stop_idle_panics_witness :
  Stop exNew = Panic /\ Inline.Stop exInline = Panic.
Proof.
  apply (Stop_idle_panics exNew exInline); reflexivity.
Defined.

(** C8 on the examples, with [scan1] visiting the map in one order and
    [scan2] in the opposite order: a non-recursive watcher of [*.txt] that
    has seen two files that are gone, and a recursive watcher on a tree that
    can be read. *)
Lemma scan_variants_agree_witness :
  same_up_to_order
    (Inline.scan1 (H := testPlatform) exInlineSeen exTree)
    (scan2 (H := reversedPlatform)
           (pluggable_of (H := reversedPlatform) exInlineSeen) exTree)
  /\ same_up_to_order
       (Inline.scan1 (H := testPlatform) exInline exTree)
       (scan2 (H := reversedPlatform)
              (pluggable_of (H := reversedPlatform) exInline) exTree).
Proof.
  split.
  - apply (scan_variants_agree testPlatform reversedPlatform exInlineSeen
             exTree).
    + reflexivity.
    + reflexivity.
    + split; [reflexivity|]. split; [reflexivity|]. split; [by_decision|].
      split; [by_decision|]. intros Hm. vm_compute in Hm. discriminate Hm.
  - apply (scan_variants_agree testPlatform reversedPlatform exInline exTree);
      reflexivity.
Defined.

(** The two batches of the first example: the same [Changed] event, then
    the two [Deleted] events in opposite orders. *)
Lemma exInlineSeen_orders :
  (r ← Inline.scan1 (H := testPlatform) exInlineSeen exTree; Ret r.1)
  = Ret [mkEvent Changed "d/a.txt" exInfoA; mkEvent Deleted "d/y.txt" exOldY;
         mkEvent Deleted "d/z.txt" exOldZ]
  /\ (r ← scan2 (H := reversedPlatform)
            (pluggable_of (H := reversedPlatform) exInlineSeen) exTree;
      Ret r.1)
     = Ret [mkEvent Changed "d/a.txt" exInfoA; mkEvent Deleted "d/z.txt" exOldZ;
            mkEvent Deleted "d/y.txt" exOldY].
Proof. split; by_evaluation. Qed.

(** C8 as stated fails: the pattern [sub/*.txt] is a path below the watched
    directory for [scan1], which globs the watched path joined with it and
    reports [d/sub/c.txt], and a pattern for the name of an entry for
    [scan2], which matches it against [a.txt], [b.log] and [sub] and reports
    nothing.  The same map order is used on both sides and the snapshot is
    empty. *)
Lemma scan_variants_differ :
  (r ← Inline.scan1 (H := testPlatform) exInlineSub exTree; Ret r.1)
  = Ret [mkEvent Added "d/sub/c.txt" exInfoC]
  /\ (r ← scan2 (H := testPlatform)
            (pluggable_of (H := testPlatform) exInlineSub) exTree; Ret r.1)
     = Ret []
  /\ ~ same_up_to_order
         (Inline.scan1 (H := testPlatform) exInlineSub exTree)
         (scan2 (H := testPlatform)
                (pluggable_of (H := testPlatform) exInlineSub) exTree)
  /\ ~ same_result
         (Inline.scan1 (H := testPlatform) exInlineSub exTree)
         (scan2 (H := testPlatform)
                (pluggable_of (H := testPlatform) exInlineSub) exTree).
Proof.
  split; [by_evaluation|]. split; [by_evaluation|]. split.
  - vm_compute. intros [(found & dels1 & dels2 & H1 & H2 & _ & Hd & _) _].
    symmetry in H2. apply app_eq_nil in H2 as [-> ->].
    simpl in H1. subst dels1. apply Forall_cons in Hd as [Hd _]. discriminate Hd.
  - vm_compute. intros [Hevs _]. discriminate Hevs.
Qed.

(** C10 on the example. *)
Lemma nil_metadata_reachable_witness :
  exists w : node,
    (exists c q, scan exRecursive w (path exRecursive) = Ret c /\ (q, None) ∈ c)
    /\ scan2 (H := testPlatform) exRecursive w = Panic
    /\ Inline.scan1 (H := testPlatform) exInline w = Panic.
Proof.
  apply (nil_metadata_reachable (H := testPlatform) exRecursive exInline);
    reflexivity.
Defined.

(** C7 fails on the code.  In recursive mode, behind a directory that cannot
    be read, the sibling [b.txt] is never sent by [recScanner], so that the
    scan reports the file, which is still there, as deleted and drops it from
    the snapshot; and an entry that cannot be stat-ed is sent with nil
    metadata, at which the scan panics. *)
Theorem recScanner_error_aborts_walk :
  recScanner (H := testPlatform) exUnreadable "d"
  = Ret [("d", Some (mkFileInfo "d" 0 50 true));
         ("d/a", Some (mkFileInfo "a" 0 60 true))]
  /\ scan2 (H := testPlatform) exRecursive exUnreadable
     = Ret ([mkEvent Deleted "d/b.txt" exInfoB], set_files exRecursive ∅)
  /\ scan2 (H := testPlatform) exRecursive exMissing = Panic.
Proof. repeat split; by_evaluation. Qed.

(** * Further properties of the code *)

(** ** The package [env] *)

Lemma foldM_app {A B : Type} (f : A -> B -> outcome A) (l1 l2 : list B) :
  forall a, foldM f a (l1 ++ l2) = foldM f a l1 ≫= fun a' => foldM f a' l2.
Proof.
  induction l1 as [|b l1 IH]; intros a; [reflexivity|].
  simpl. destruct (f a b) as [a'|]; simpl; [apply IH | reflexivity].
Qed.

Lemma splitFields_plain s :
  env.plain s = true -> env.splitFields s "=" = (s, []).
Proof.
  induction s as [|c s IH]; intros Hs; [reflexivity|].
  simpl in Hs. apply andb_prop in Hs as [Hc Hs].
  apply negb_true_iff, bool_decide_eq_false in Hc.
  simpl. rewrite decide_False by exact Hc. by rewrite (IH Hs).
Qed.

Lemma splitFields_rest_nil s :
  (env.splitFields s "=").2 = [] <-> env.plain s = true.
Proof.
  induction s as [|c s IH]; [done|]. simpl.
  destruct (decide (c = "="%char)) as [->|Hc]; simpl.
  - split; discriminate.
  - rewrite IH. rewrite bool_decide_eq_false_2 by exact Hc. done.
Qed.

Lemma Split_entry k s :
  env.plain k = true ->
  env.Split (k +:+ "=" +:+ s) "=" = k :: env.Split s "=".
Proof.
  unfold env.Split. induction k as [|c k IH]; intros Hk; [reflexivity|].
  simpl in Hk. apply andb_prop in Hk as [Hc Hk].
  apply negb_true_iff, bool_decide_eq_false in Hc. specialize (IH Hk).
  injection IH as IH1 IH2. simpl. rewrite decide_False by exact Hc.
  simpl. by rewrite IH1, IH2.
Qed.

Lemma Split_plain s : env.plain s = true -> env.Split s "=" = [s].
Proof. intros Hs. unfold env.Split. by rewrite splitFields_plain. Qed.

(** The body of the loop of [Map] on one string. *)
Lemma Map_snoc environ v :
  env.Map (environ ++ [v])
  = env.Map environ ≫= fun m =>
      k ← env.index (env.Split v "=") 0;
      x ← env.index (env.Split v "=") 1;
      Ret (<[k := x]> m).
Proof.
  unfold env.Map. rewrite foldM_app. destruct (foldM _ ∅ environ) as [m|];
    [|reflexivity].
  simpl. destruct (env.index (env.Split v "=") 1); reflexivity.
Qed.

Lemma Map_step v (m : gmap string string) :
  (k ← env.index (env.Split v "=") 0;
   x ← env.index (env.Split v "=") 1;
   Ret (<[k := x]> m))
  = match (env.splitFields v "=").2 with
    | [] => Panic
    | x :: _ => Ret (<[(env.splitFields v "=").1 := x]> m)
    end.
Proof.
  unfold env.Split, env.index. simpl.
  destruct ((env.splitFields v "=").2); reflexivity.
Qed.

(** X1.  [Map] panics exactly when a string of the environment has no [=]:
    [kv[1]] is then out of the bounds of the slice. *)
Theorem Map_panics_iff environ :
  env.Map environ = Panic <-> exists v, v ∈ environ /\ env.plain v = true.
Proof.
  induction environ as [|v environ IH] using rev_ind.
  - split; [discriminate|]. intros (v & Hv & _). by apply elem_of_nil in Hv.
  - rewrite Map_snoc. destruct (env.Map environ) as [m|] eqn:Hm.
    + change (Ret m ≫= ?f) with (f m). cbv beta. rewrite Map_step.
      destruct ((env.splitFields v "=").2) as [|x xs] eqn:Hrest.
      * split; [|reflexivity]. intros _. exists v. split.
        -- apply elem_of_app. right. by left.
        -- by apply splitFields_rest_nil.
      * split; [discriminate|]. intros (v' & Hin & Hplain).
        apply elem_of_app in Hin as [Hin|Hin].
        -- assert (@Ret (gmap string string) m = Panic) as Habs
             by (apply IH; eauto). discriminate.
        -- apply list_elem_of_singleton in Hin as ->.
           apply splitFields_rest_nil in Hplain. congruence.
    + split; [|reflexivity]. intros _.
      destruct (proj1 IH eq_refl) as (v' & Hin & Hplain).
      exists v'. split; [|exact Hplain]. apply elem_of_app. by left.
Qed.

(** X2.  On an environment of variables and values without [=], [Map]
    returns the map of the variables to their values; of two strings for the
    same variable the later one counts. *)
Theorem Map_entries (l : list (string * string)) :
  Forall (fun kx => env.plain kx.1 = true /\ env.plain kx.2 = true) l ->
  env.Map (env.entry <$> l) = Ret (list_to_map (reverse l)).
Proof.
  induction l as [|[k x] l IH] using rev_ind; intros Hall; [reflexivity|].
  apply Forall_app in Hall as [Hall Hkx].
  apply Forall_singleton in Hkx as [Hk Hx]. simpl in Hk, Hx.
  rewrite fmap_app, (fmap_cons _ _ []), fmap_nil, Map_snoc, (IH Hall).
  change (Ret ?m ≫= ?f) with (f m). cbv beta.
  unfold env.entry. cbn [fst snd].
  rewrite (Split_entry k x Hk), (Split_plain x Hx), reverse_app.
  reflexivity.
Qed.

(** X3.  Of a value that contains [=], [Map] keeps the part before the
    first [=] of the value and drops the rest. *)
Theorem Map_truncates environ m k a rest :
  env.plain k = true -> env.plain a = true ->
  env.Map environ = Ret m ->
  env.Map (environ ++ [k +:+ "=" +:+ a +:+ "=" +:+ rest]) = Ret (<[k := a]> m).
Proof.
  intros Hk Ha Hm. rewrite Map_snoc, Hm.
  change (Ret ?m ≫= ?f) with (f m). cbv beta.
  rewrite (Split_entry k _ Hk), (Split_entry a _ Ha). reflexivity.
Qed.

(** ** Strings of events *)

(** X4.  [Event.String] tells apart events that differ in their kind or in
    their path: the string determines both. *)
Theorem Event_String_inj e1 e2 :
  Event_String e1 = Event_String e2
  <-> Type_ e1 = Type_ e2 /\ Path e1 = Path e2.
Proof.
  destruct e1 as [t1 p1 i1], e2 as [t2 p2 i2]. unfold Event_String. simpl.
  split.
  - destruct t1, t2; simpl; intros Heq; simplify_eq; done.
  - by intros [-> ->].
Qed.

(** ** Options *)

Section OptionFacts.
Context `{Platform}.

Lemma applyOption_inv name kind assign dw (m : gmap string value) dw' m' :
  applyOption name kind assign (dw, m) = Ret (dw', m') ->
  (exists v, m !! name = Some v /\ kindOf v = kind
             /\ assign dw v = Some dw' /\ m' = delete name m)
  \/ (dw' = dw /\ m' = m /\ forall v, m !! name = Some v -> kindOf v <> kind).
Proof.
  unfold applyOption. simpl. destruct (m !! name) as [v|] eqn:Hv.
  - destruct (decide (kindOf v = kind)) as [Hk|Hk].
    + destruct (assign dw v) as [dw1|] eqn:Ha; [|discriminate].
      intros [= <- <-]. left. exists v. auto.
    + intros [= <- <-]. right. split; [done|]. split; [done|].
      by intros v' [= <-].
  - intros [= <- <-]. right. split; [done|]. split; [done|]. discriminate.
Qed.

Lemma applyOption_panic name kind assign dw (m : gmap string value) :
  applyOption name kind assign (dw, m) = Panic
  <-> exists v, m !! name = Some v /\ kindOf v = kind /\ assign dw v = None.
Proof.
  unfold applyOption. simpl. destruct (m !! name) as [v|] eqn:Hv.
  - destruct (decide (kindOf v = kind)) as [Hk|Hk].
    + destruct (assign dw v) as [dw1|] eqn:Ha.
      * split; [discriminate|]. intros (v' & [= <-] & _ & Hn). congruence.
      * split; [|done]. intros _. exists v. auto.
    + split; [discriminate|]. intros (v' & [= <-] & Hk' & _). contradiction.
  - split; [discriminate|]. intros (v' & Hv' & _). discriminate.
Qed.
Lemma New_inl w p dw :
  New w p = inl dw -> dw = mkWatcher 2000 false "*" globScanner p ∅ None [] false.
Proof.
  unfold New. destruct (Stat w) as [stat|]; [|discriminate].
  destruct (negb (IsDir stat)); [discriminate|]. by intros [= <-].
Qed.

Lemma applyOption_other name kind assign dw (m : gmap string value) dw' m' k :
  applyOption name kind assign (dw, m) = Ret (dw', m') ->
  k <> name -> m' !! k = m !! k.
Proof.
  intros [(v & _ & _ & _ & ->)|(_ & -> & _)]%applyOption_inv Hk;
    [by rewrite lookup_delete_ne | reflexivity].
Qed.

Lemma step_Interval dw (m : gmap string value) dw' m' :
  applyOption "Interval" KUint64 assignInterval (dw, m) = Ret (dw', m') ->
  dw' = set_Interval dw
          match m !! "Interval" with Some (VUint64 n) => n | _ => Interval dw end
  /\ m' !! "Interval"
     = match m !! "Interval" with Some (VUint64 _) => None | o => o end.
Proof.
  intros [(v & Hv & Hk & Ha & ->)|(-> & -> & Hn)]%applyOption_inv.
  - rewrite Hv. destruct v; try discriminate Ha. injection Ha as <-.
    split; [reflexivity | apply lookup_delete_eq].
  - destruct (m !! "Interval") as [[]|] eqn:Hv;
      try (split; [by destruct dw | reflexivity]).
    exfalso. by eapply Hn.
Qed.

Lemma step_Recursive dw (m : gmap string value) dw' m' :
  applyOption "Recursive" KBool assignRecursive (dw, m) = Ret (dw', m') ->
  dw' = set_Recursive dw
          match m !! "Recursive" with Some (VBool b) => b | _ => Recursive dw end
  /\ m' !! "Recursive"
     = match m !! "Recursive" with Some (VBool _) => None | o => o end.
Proof.
  intros [(v & Hv & Hk & Ha & ->)|(-> & -> & Hn)]%applyOption_inv.
  - rewrite Hv. destruct v; try discriminate Ha. injection Ha as <-.
    split; [reflexivity | apply lookup_delete_eq].
  - destruct (m !! "Recursive") as [[]|] eqn:Hv;
      try (split; [by destruct dw | reflexivity]).
    exfalso. by eapply Hn.
Qed.

Lemma step_Pattern dw (m : gmap string value) dw' m' :
  applyOption "Pattern" KString assignPattern (dw, m) = Ret (dw', m') ->
  dw' = set_Pattern dw
          match m !! "Pattern" with Some (VString s) => s | _ => Pattern dw end
  /\ m' !! "Pattern"
     = match m !! "Pattern" with Some (VString _) => None | o => o end.
Proof.
  intros [(v & Hv & Hk & Ha & ->)|(-> & -> & Hn)]%applyOption_inv.
  - rewrite Hv. destruct v; try discriminate Ha. injection Ha as <-.
    split; [reflexivity | apply lookup_delete_eq].
  - destruct (m !! "Pattern") as [[]|] eqn:Hv;
      try (split; [by destruct dw | reflexivity]).
    exfalso. by eapply Hn.
Qed.

Lemma step_Preload dw (m : gmap string value) dw' m' :
  applyOption "Preload" KBool assignPreload (dw, m) = Ret (dw', m') ->
  dw' = set_Preload dw
          match m !! "Preload" with Some (VBool b) => b | _ => Preload dw end
  /\ m' !! "Preload"
     = match m !! "Preload" with Some (VBool _) => None | o => o end.
Proof.
  intros [(v & Hv & Hk & Ha & ->)|(-> & -> & Hn)]%applyOption_inv.
  - rewrite Hv. destruct v; try discriminate Ha. injection Ha as <-.
    split; [reflexivity | apply lookup_delete_eq].
  - destruct (m !! "Preload") as [[]|] eqn:Hv;
      try (split; [by destruct dw | reflexivity]).
    exfalso. by eapply Hn.
Qed.

Lemma accepts_other k v :
  k <> "Interval" -> k <> "Recursive" -> k <> "Pattern" -> k <> "Preload" ->
  accepts k v = false.
Proof.
  intros. destruct v; simpl; rewrite ?bool_decide_eq_false_2 by done; done.
Qed.

(** X5.  When [NewOpts] returns a watcher, each exported field holds the
    value of the option of its name if that value has the type of the field,
    and the default of [New] otherwise (an [int] given for [Interval] is not
    applied); the other fields are as [New] leaves them; and the options map
    has lost exactly the options that were applied, the remaining ones being
    those reported as unused. *)
Theorem NewOpts_applies w p opts dw opts' :
  NewOpts w p opts = Ret (inl dw, opts') ->
  Interval dw = match opts !! "Interval" with Some (VUint64 n) => n | _ => 2000 end
  /\ Recursive dw = match opts !! "Recursive" with Some (VBool b) => b | _ => false end
  /\ Pattern dw = match opts !! "Pattern" with Some (VString s) => s | _ => "*" end
  /\ Preload dw = match opts !! "Preload" with Some (VBool b) => b | _ => false end
  /\ (scan dw = globScanner /\ path dw = p /\ files dw = ∅ /\ ticker dw = None
      /\ observers dw = [])
  /\ forall k, opts' !! k
               = match opts !! k with
                 | Some v => if accepts k v then None else Some v
                 | None => None
                 end.
Proof.
  unfold NewOpts. destruct (New w p) as [dw0|err] eqn:Hnew; [|discriminate].
  apply New_inl in Hnew. subst dw0. intros Hrun.
  apply bind_Ret in Hrun as ([dw1 m1] & H1 & Hrun).
  apply bind_Ret in Hrun as ([dw2 m2] & H2 & Hrun).
  apply bind_Ret in Hrun as ([dw3 m3] & H3 & Hrun).
  apply bind_Ret in Hrun as ([dw4 m4] & H4 & Hrun).
  simpl in Hrun. injection Hrun as <- <-.
  destruct (step_Interval _ _ _ _ H1) as [D1 A1].
  destruct (step_Recursive _ _ _ _ H2) as [D2 A2].
  destruct (step_Pattern _ _ _ _ H3) as [D3 A3].
  destruct (step_Preload _ _ _ _ H4) as [D4 A4].
  rewrite (applyOption_other _ _ _ _ _ _ _ "Preload" H3),
    (applyOption_other _ _ _ _ _ _ _ "Preload" H2),
    (applyOption_other _ _ _ _ _ _ _ "Preload" H1) in D4, A4 by discriminate.
  rewrite (applyOption_other _ _ _ _ _ _ _ "Pattern" H2),
    (applyOption_other _ _ _ _ _ _ _ "Pattern" H1) in D3, A3 by discriminate.
  rewrite (applyOption_other _ _ _ _ _ _ _ "Recursive" H1) in D2, A2
    by discriminate.
  split; [|split; [|split; [|split; [|split]]]].
  - rewrite D4, D3, D2, D1. reflexivity.
  - rewrite D4, D3, D2, D1. reflexivity.
  - rewrite D4, D3, D2, D1. reflexivity.
  - rewrite D4, D3, D2, D1. reflexivity.
  - rewrite D4, D3, D2, D1. auto.
  - intros k.
    destruct (decide (k = "Interval")) as [->|N1].
    { rewrite (applyOption_other _ _ _ _ _ _ _ _ H4),
        (applyOption_other _ _ _ _ _ _ _ _ H3),
        (applyOption_other _ _ _ _ _ _ _ _ H2), A1 by discriminate.
      by destruct (opts !! "Interval") as [[]|]. }
    destruct (decide (k = "Recursive")) as [->|N2].
    { rewrite (applyOption_other _ _ _ _ _ _ _ _ H4),
        (applyOption_other _ _ _ _ _ _ _ _ H3), A2 by discriminate.
      by destruct (opts !! "Recursive") as [[]|]. }
    destruct (decide (k = "Pattern")) as [->|N3].
    { rewrite (applyOption_other _ _ _ _ _ _ _ _ H4), A3 by discriminate.
      by destruct (opts !! "Pattern") as [[]|]. }
    destruct (decide (k = "Preload")) as [->|N4].
    { rewrite A4. by destruct (opts !! "Preload") as [[]|]. }
    rewrite (applyOption_other _ _ _ _ _ _ _ _ H4),
      (applyOption_other _ _ _ _ _ _ _ _ H3),
      (applyOption_other _ _ _ _ _ _ _ _ H2),
      (applyOption_other _ _ _ _ _ _ _ _ H1) by done.
    destruct (opts !! k) as [v|]; [|done]. by rewrite accepts_other.
Qed.
Lemma bind_Panic {A B : Type} (m : outcome A) (f : A -> outcome B) :
  m ≫= f = Panic <-> m = Panic \/ exists a, m = Ret a /\ f a = Panic.
Proof.
  destruct m as [a|]; simpl; split; auto.
  - intros Hf. right. eauto.
  - intros [Hm|(a' & [= <-] & Hf)]; [discriminate | exact Hf].
Qed.

Lemma refuses_names k v :
  refuses k v = true ->
  (k = "Interval" /\ v = VDefined KUint64)
  \/ (k = "Recursive" /\ v = VDefined KBool)
  \/ (k = "Pattern" /\ v = VDefined KString)
  \/ (k = "Preload" /\ v = VDefined KBool).
Proof.
  destruct v as [| | | | |[]|]; simpl; try discriminate.
  - intros [->%bool_decide_eq_true| ->%bool_decide_eq_true]%orb_true_iff; auto.
  - intros ->%bool_decide_eq_true. auto.
  - intros ->%bool_decide_eq_true. auto.
Qed.

(** X6.  [NewOpts] panics exactly when the path is a directory and the
    options hold, under the name of an exported field, a value of a defined
    type of the kind of that field: the kinds agree and [field.Set] refuses
    the value. *)
Theorem NewOpts_panics_iff w p (opts : gmap string value) :
  NewOpts w p opts = Panic
  <-> (exists dw, New w p = inl dw)
      /\ exists k v, opts !! k = Some v /\ refuses k v = true.
Proof.
  unfold NewOpts. destruct (New w p) as [dw0|err] eqn:Hnew.
  2:{ split; [discriminate|]. intros [[dw [=]] _]. }
  split.
  - intros Hrun. split; [eauto|].
    apply bind_Panic in Hrun as [H1|([dw1 m1] & H1 & Hrun)].
    { apply applyOption_panic in H1 as (v & Hv & Hk & Ha).
      exists "Interval", v. split; [exact Hv|]. by destruct v as [| | | | |[]|]. }
    apply bind_Panic in Hrun as [H2|([dw2 m2] & H2 & Hrun)].
    { apply applyOption_panic in H2 as (v & Hv & Hk & Ha). simpl in Hv.
      rewrite (applyOption_other _ _ _ _ _ _ _ _ H1) in Hv by discriminate.
      exists "Recursive", v. split; [exact Hv|]. by destruct v as [| | | | |[]|]. }
    apply bind_Panic in Hrun as [H3|([dw3 m3] & H3 & Hrun)].
    { apply applyOption_panic in H3 as (v & Hv & Hk & Ha). simpl in Hv.
      rewrite (applyOption_other _ _ _ _ _ _ _ _ H2),
        (applyOption_other _ _ _ _ _ _ _ _ H1) in Hv by discriminate.
      exists "Pattern", v. split; [exact Hv|]. by destruct v as [| | | | |[]|]. }
    apply bind_Panic in Hrun as [H4|([dw4 m4] & H4 & Hrun)]; [|discriminate].
    apply applyOption_panic in H4 as (v & Hv & Hk & Ha). simpl in Hv.
    rewrite (applyOption_other _ _ _ _ _ _ _ _ H3),
      (applyOption_other _ _ _ _ _ _ _ _ H2),
      (applyOption_other _ _ _ _ _ _ _ _ H1) in Hv by discriminate.
    exists "Preload", v. split; [exact Hv|]. by destruct v as [| | | | |[]|].
  - intros [_ (k & v & Hv & Hr)].
    destruct (applyOption "Interval" KUint64 assignInterval (dw0, opts))
      as [[dw1 m1]|] eqn:H1; [|reflexivity].
    change (Ret ?a ≫= ?f) with (f a). cbv beta.
    destruct (applyOption "Recursive" KBool assignRecursive (dw1, m1))
      as [[dw2 m2]|] eqn:H2; [|reflexivity].
    change (Ret ?a ≫= ?f) with (f a). cbv beta.
    destruct (applyOption "Pattern" KString assignPattern (dw2, m2))
      as [[dw3 m3]|] eqn:H3; [|reflexivity].
    change (Ret ?a ≫= ?f) with (f a). cbv beta.
    destruct (applyOption "Preload" KBool assignPreload (dw3, m3))
      as [[dw4 m4]|] eqn:H4; [|reflexivity].
    exfalso.
    pose proof (applyOption_other _ _ _ _ _ _ _ "Recursive" H1) as E21.
    pose proof (applyOption_other _ _ _ _ _ _ _ "Pattern" H1) as E31.
    pose proof (applyOption_other _ _ _ _ _ _ _ "Pattern" H2) as E32.
    pose proof (applyOption_other _ _ _ _ _ _ _ "Preload" H1) as E41.
    pose proof (applyOption_other _ _ _ _ _ _ _ "Preload" H2) as E42.
    pose proof (applyOption_other _ _ _ _ _ _ _ "Preload" H3) as E43.
    apply applyOption_inv in H1, H2, H3, H4.
    apply refuses_names in Hr as [[-> ->]|[[-> ->]|[[-> ->]|[-> ->]]]].
    + destruct H1 as [(v & Hv' & _ & Ha & _)|(_ & _ & Hn)].
      * rewrite Hv in Hv'. injection Hv' as <-. discriminate Ha.
      * by eapply Hn.
    + rewrite <- E21 in Hv by discriminate.
      destruct H2 as [(v & Hv' & _ & Ha & _)|(_ & _ & Hn)].
      * rewrite Hv in Hv'. injection Hv' as <-. discriminate Ha.
      * by eapply Hn.
    + rewrite <- E31, <- E32 in Hv by discriminate.
      destruct H3 as [(v & Hv' & _ & Ha & _)|(_ & _ & Hn)].
      * rewrite Hv in Hv'. injection Hv' as <-. discriminate Ha.
      * by eapply Hn.
    + rewrite <- E41, <- E42, <- E43 in Hv by discriminate.
      destruct H4 as [(v & Hv' & _ & Ha & _)|(_ & _ & Hn)].
      * rewrite Hv in Hv'. injection Hv' as <-. discriminate Ha.
      * by eapply Hn.
Qed.
End OptionFacts.

(** ** Traversals *)

Section TraversalFacts.
Context `{Platform}.

Lemma statable_Lstat k : statable k = true -> exists info, Lstat k = Some info.
Proof. destruct k; [discriminate | simpl; eauto | simpl; eauto]. Qed.

(** On a tree whose entries can all be stat-ed, the walk of [recScanner]
    sends pairs with metadata only; if moreover every directory can be read
    it sends the listing of the tree and ends without error. *)
Lemma walk_sendFn_statable : forall n,
  statable n = true ->
  forall p, exists L e,
    (forall acc, walk sendFn p n acc = Ret (acc ++ L, e))
    /\ Forall (fun pair : strFileInfo => pair.2 <> None) L
    /\ e <> Some SkipDir
    /\ (readable n = true -> L = listing p n /\ e = None).
Proof.
  induction n as [name|name size mtime|name size mtime|name size mtime kids IH]
    using node_nested_ind; intros Hst p.
  - discriminate.
  - exists [(p, Some (mkFileInfo name size mtime false))], None.
    split; [reflexivity|]. split; [by repeat constructor|]. done.
  - exists [(p, Some (mkFileInfo name size mtime true))], (Some PathError).
    split; [reflexivity|]. split; [by repeat constructor|]. done.
  - simpl in Hst.
    assert (exists L e,
      (forall acc, walkEntries sendFn (walk sendFn) p kids acc = Ret (acc ++ L, e))
      /\ Forall (fun pair : strFileInfo => pair.2 <> None) L
      /\ e <> Some SkipDir
      /\ (forallb readable kids = true ->
          L = flat_map (fun k => listing (Join p (node_name k)) k) kids
          /\ e = None)) as (L & e & Hsent & Hall & Hskip & Hread).
    { clear name size mtime. induction kids as [|k kids IHk].
      - exists [], None. split; [|split; [constructor|done]].
        intros acc. simpl. by rewrite app_nil_r.
      - apply Forall_cons in IH as [Hk IH].
        simpl in Hst. apply andb_prop in Hst as [Hsk Hst].
        destruct (IHk IH Hst) as (L2 & e2 & Hsent2 & Hall2 & Hskip2 & Hread2).
        destruct (Hk Hsk (Join p (node_name k)))
          as (L1 & e1 & Hsent1 & Hall1 & Hskip1 & Hread1).
        destruct (statable_Lstat k Hsk) as [info Hinfo].
        destruct e1 as [err|].
        + exists L1, (Some err). split; [|split; [exact Hall1|split; [exact Hskip1|]]].
          * intros acc. simpl. rewrite Hinfo, Hsent1. simpl.
            destruct err; [done | by rewrite orb_true_r].
          * simpl. intros [Hrk _]%andb_prop. by destruct (Hread1 Hrk).
        + exists (L1 ++ L2), e2.
          split; [|split; [by apply Forall_app|split; [exact Hskip2|]]].
          * intros acc. simpl. rewrite Hinfo, Hsent1. simpl.
            by rewrite Hsent2, app_assoc.
          * simpl. intros [Hrk Hrks]%andb_prop.
            destruct (Hread1 Hrk) as [-> _]. destruct (Hread2 Hrks) as [-> ->].
            done. }
    exists ((p, Some (mkFileInfo name size mtime true)) :: L), e.
    split; [|split; [by constructor|split; [exact Hskip|]]].
    + intros acc. simpl. rewrite Hsent. by rewrite <- app_assoc.
    + simpl. intros Hr. destruct (Hread Hr) as [-> ->]. done.
Qed.

Lemma recScanner_statable w p :
  statable w = true ->
  exists L, recScanner w p = Ret L
    /\ Forall (fun pair : strFileInfo => pair.2 <> None) L
    /\ (readable w = true -> L = listing p w).
Proof.
  intros Hst. destruct (walk_sendFn_statable w Hst p)
    as (L & e & Hsent & Hall & Hskip & Hread).
  destruct (statable_Lstat w Hst) as [info Hinfo].
  exists L. unfold recScanner, Walk. rewrite Hinfo, Hsent. simpl.
  split; [|split; [exact Hall|]].
  - by destruct e as [[]|].
  - intros Hr. by destruct (Hread Hr).
Qed.

(** X7.  On a tree in which every entry can be stat-ed and every directory
    read, [recScanner] sends every entry of the tree once: the watched
    directory first, a directory before its entries, files of any depth. *)
Theorem recScanner_listing w p :
  statable w = true -> readable w = true -> recScanner w p = Ret (listing p w).
Proof.
  intros Hst Hr. destruct (recScanner_statable w p Hst) as (L & HL & _ & Hlist).
  by rewrite HL, (Hlist Hr).
Qed.

(** X8.  In recursive mode the scan returns whenever every entry of the tree
    can be stat-ed: it panics only on an entry without metadata. *)
Theorem scan2_recursive_total dw w :
  scan dw = recScanner -> statable w = true ->
  exists evs dw', scan2 dw w = Ret (evs, dw').
Proof.
  intros Hscan Hst.
  destruct (recScanner_statable w (path dw) Hst) as (L & HL & Hall & _).
  rewrite <- Hscan in HL. rewrite (scan2_total dw w L HL Hall). eauto.
Qed.

Lemma listing_File p name size mtime :
  listing p (File name size mtime)
  = [(p, Some (mkFileInfo name size mtime false))].
Proof. reflexivity. Qed.

Lemma listing_Dir_None p name size mtime :
  listing p (Dir name size mtime None)
  = [(p, Some (mkFileInfo name size mtime true))].
Proof. reflexivity. Qed.

Lemma listing_Dir_Some p name size mtime kids :
  listing p (Dir name size mtime (Some kids))
  = (p, Some (mkFileInfo name size mtime true))
    :: flat_map (fun k => listing (Join p (node_name k)) k) kids.
Proof. reflexivity. Qed.

(** The walk of [scan1] over such a tree records the listing: a directory
    that cannot be read is passed over. *)
Lemma walk_walkFn_statable pattern : forall n,
  statable n = true ->
  forall p st, walk (Inline.walkFn pattern) p n st
               = Ret (noteAll st (fresh pattern (listing p n)), None).
Proof.
  induction n as [name|name size mtime|name size mtime|name size mtime kids IH]
    using node_nested_ind; intros Hst p st.
  - discriminate.
  - rewrite listing_File, fresh_cons_Some. simpl.
    destruct (negb (matches pattern name)); reflexivity.
  - rewrite listing_Dir_None, fresh_cons_Some. reflexivity.
  - rewrite listing_Dir_Some, fresh_cons_Some. simpl in Hst |- *.
    revert st. induction kids as [|k kids IHk]; intros st; [reflexivity|].
    apply Forall_cons in IH as [Hk IH].
    simpl in Hst. apply andb_prop in Hst as [Hsk Hst].
    destruct (statable_Lstat k Hsk) as [info Hinfo].
    simpl. rewrite Hinfo, (Hk Hsk). simpl. rewrite (IHk IH Hst).
    by rewrite fresh_app, noteAll_app.
Qed.
End TraversalFacts.

Section TraversalClaims.
Context `{Platform}.

Lemma sweep_noteAll_dom (m : gmap string FileInfo) (l : list (string * FileInfo)) :
  dom (sweep (noteAll (mkScanState m [] ∅) l)).1 = list_to_set l.*1.
Proof.
  apply set_eq. intros p. rewrite elem_of_dom, sweep_lookup, noteAll_touched.
  simpl. destruct (decide (p ∈ list_to_set l.*1 ∪ (∅ : gset string))) as [Hp|Hp].
  - split; [set_solver|]. intros _. apply elem_of_dom.
    rewrite noteAll_dom. set_solver.
  - split; [by intros [? ?]|set_solver].
Qed.

(** X9.  In recursive mode [scan1] is not stopped by a directory that cannot
    be read: when every entry can be stat-ed it returns, and its snapshot
    holds the matching files of the whole listing, those behind the
    directory included. *)
Theorem scan1_passes_unreadable (dwi : Inline.directoryWatcher) (w : node) :
  Inline.Recursive dwi = true -> statable w = true ->
  exists evs dwi',
    Inline.scan1 dwi w = Ret (evs, dwi')
    /\ dom (Inline.files dwi')
       = matching (Inline.Pattern dwi) (listing (Inline.path dwi) w).
Proof.
  intros Hrec Hst. unfold Inline.scan1, Walk. rewrite Hrec.
  destruct (statable_Lstat w Hst) as [info ->].
  rewrite (walk_walkFn_statable _ w Hst). simpl.
  eexists _, _. split; [reflexivity|]. simpl. apply sweep_noteAll_dom.
Qed.

(** X10.  [globScanner] is shallow and never sends nil metadata.  For a
    watched path without metacharacter it returns, and what it sends is, in
    the order of the listing, exactly one pair for each entry of the watched
    directory that [*] matches and that can be stat-ed, with the path of the
    entry below the watched path and its metadata: nothing twice, nothing
    from below an entry, and no entry that cannot be stat-ed. *)
Theorem globScanner_shallow w p :
  hasMeta p = false ->
  globScanner w p
  = Ret (omap (fun k =>
                 if matches "*" (node_name k)
                 then info ← Lstat k; Some (Join p (node_name k), Some info)
                 else None)
              (children w)).
Proof.
  intros _. unfold globScanner, Glob. cbv zeta. f_equal.
  induction (children w) as [|k ks IH]; [reflexivity|].
  destruct (matches "*" (node_name k)) eqn:Hm.
  - rewrite filter_cons_True by (rewrite Hm; exact I).
    rewrite fmap_cons, globScanner_cons. csimpl. rewrite Hm, <- IH.
    by destruct (Lstat k).
  - rewrite filter_cons_False by (rewrite Hm; exact id).
    csimpl. by rewrite Hm.
Qed.

Lemma globScanner_metadata w p :
  exists c, globScanner w p = Ret c
    /\ Forall (fun pair : strFileInfo => pair.2 <> None) c.
Proof.
  eexists. split; [reflexivity|]. apply Forall_forall. intros [q oi] Hin.
  apply list_elem_of_omap in Hin as ([q' k] & _ & Hf). simpl in Hf.
  destruct (Stat k); [|discriminate]. by injection Hf as <- <-.
Qed.

(** X11.  In non-recursive mode the scan never panics, whatever the
    directory holds. *)
Theorem scan2_glob_total dw w :
  scan dw = globScanner -> exists evs dw', scan2 dw w = Ret (evs, dw').
Proof.
  intros Hscan. destruct (globScanner_metadata w (path dw)) as (c & Hc & Hall).
  rewrite <- Hscan in Hc. rewrite (scan2_total dw w c Hc Hall). eauto.
Qed.

Lemma filter_all {A : Type} (P : A -> Prop) `{!forall x, Decision (P x)}
    (l : list A) :
  (forall x, P x) -> filter P l = l.
Proof.
  intros HP. induction l as [|x l IH]; [done|].
  rewrite filter_cons_True by apply HP. by rewrite IH.
Qed.

Lemma deletions_untouched (m : gmap string FileInfo) ch :
  deletions (mkScanState m ch ∅)
  ≡ₚ (fun kv => mkEvent Deleted kv.1 kv.2) <$> map_to_list m.
Proof.
  unfold deletions. cbn [st_touched st_files].
  rewrite filter_all by set_solver. by rewrite (range_perm m).
Qed.

End TraversalClaims.

(** ** Batches and snapshots *)

Section BatchFacts.
Context `{Platform}.

Lemma eventFor_kind (m : gmap string FileInfo) pi e :
  eventFor m pi = Some e -> Type_ e <> Deleted.
Proof.
  unfold eventFor. destruct (m !! pi.1) as [old|].
  - destruct (After _ _); [|discriminate]. by intros [= <-].
  - by intros [= <-].
Qed.

Lemma noteAll_changed_in l : forall st e,
  e ∈ st_changed (noteAll st l) ->
  e ∈ st_changed st \/ (Type_ e <> Deleted /\ (Path e, Info e) ∈ l).
Proof.
  induction l as [|[p i] l IH]; intros st e He; [by left|].
  rewrite noteAll_cons in He. apply IH in He as [He|[Hty Hin]].
  - rewrite note_changed in He. apply elem_of_app in He as [He|He]; [by left|].
    right. destruct (eventFor (st_files st) (p, i)) as [e'|] eqn:Hev;
      [|by apply elem_of_nil in He].
    apply list_elem_of_singleton in He as ->.
    pose proof (eventFor_Path _ _ _ Hev) as Hp.
    pose proof (eventFor_Info _ _ _ Hev) as Hi. simpl in Hp, Hi.
    split; [by eapply eventFor_kind|]. rewrite Hp, Hi. by left.
  - right. split; [exact Hty|]. by right.
Qed.

Lemma range_NoDup_pairs (m : gmap string FileInfo) : NoDup (range m).
Proof. rewrite (range_perm m). apply NoDup_map_to_list. Qed.

(** The deletions, up to their order, in terms of the snapshot before the
    scan. *)
Lemma deletions_scanned dw c :
  deletions (scanned dw c)
  ≡ₚ (fun kv => mkEvent Deleted kv.1 kv.2)
       <$> filter (fun kv => kv.1 ∉ matching (Pattern dw) c)
             (map_to_list (files dw)).
Proof.
  unfold deletions. apply fmap_Permutation. rewrite scanned_touched.
  apply NoDup_Permutation.
  - apply NoDup_filter, range_NoDup_pairs.
  - apply NoDup_filter, NoDup_map_to_list.
  - intros [p i]. rewrite !list_elem_of_filter, range_elem, elem_of_map_to_list.
    simpl. split; intros [Hp Hi]; (split; [exact Hp|]).
    + unfold scanned in Hi. rewrite noteAll_files_notin in Hi; [exact Hi|].
      intros Hin. apply Hp. unfold matching. by apply elem_of_list_to_set.
    + unfold scanned. rewrite noteAll_files_notin; [exact Hi|].
      intros Hin. apply Hp. unfold matching. by apply elem_of_list_to_set.
Qed.

(** X13.  The batch of a scan over a traversal that meets every path once,
    in full: the event of each recorded entry, in the order of the
    traversal, then one [Deleted] event for each entry of the snapshot that
    was not met, these in the order in which the map is visited. *)
Theorem scan2_batch dw w c evs dw' :
  scan dw w (path dw) = Ret c ->
  scan2 dw w = Ret (evs, dw') ->
  NoDup (fresh (Pattern dw) c).*1 ->
  exists dels,
    evs = omap (eventFor (files dw)) (fresh (Pattern dw) c) ++ dels
    /\ dels ≡ₚ (fun kv => mkEvent Deleted kv.1 kv.2)
                 <$> filter (fun kv => kv.1 ∉ matching (Pattern dw) c)
                       (map_to_list (files dw)).
Proof.
  intros Hc (c' & Hc' & _ & -> & _)%scan2_inv Hnd.
  rewrite Hc in Hc'. injection Hc' as <-.
  exists (deletions (scanned dw c)). rewrite scanned_changed by exact Hnd.
  split; [reflexivity | apply deletions_scanned].
Qed.

(** X14.  Every event of a batch is warranted: a [Deleted] event carries a
    path and record of the snapshot before the scan, without a recorded
    entry in the traversal; any other event carries the path and metadata
    of an entry of the traversal that is not a directory and whose name
    matches the pattern. *)
Theorem scan2_events_sound dw w c evs dw' e :
  scan dw w (path dw) = Ret c ->
  scan2 dw w = Ret (evs, dw') ->
  e ∈ evs ->
  (Type_ e = Deleted
   /\ files dw !! Path e = Some (Info e)
   /\ ~ touches (Pattern dw) c (Path e))
  \/ (Type_ e <> Deleted
      /\ (Path e, Some (Info e)) ∈ c
      /\ IsDir (Info e) = false
      /\ matches (Pattern dw) (Name (Info e)) = true).
Proof.
  intros Hc (c' & Hc' & _ & -> & _)%scan2_inv He.
  rewrite Hc in Hc'. injection Hc' as <-.
  apply elem_of_app in He as [He|He].
  - right. unfold scanned in He.
    apply noteAll_changed_in in He as [He|[Hty Hin]];
      [by apply elem_of_nil in He|].
    split; [exact Hty|]. by apply elem_of_fresh.
  - left. destruct e as [ty p i].
    pose proof (deletions_kinds (scanned dw c)) as Hk.
    rewrite Forall_forall in Hk. pose proof (Hk _ He) as Hty. simpl in Hty.
    subst ty. apply elem_of_deletions in He as [Hi Hn]. simpl.
    rewrite scanned_touched in Hn.
    assert (~ touches (Pattern dw) c p) as Hno by (by rewrite <- elem_of_matching).
    split; [reflexivity|]. split; [|exact Hno].
    unfold scanned in Hi. rewrite noteAll_files_notin in Hi; [exact Hi|].
    intros Hin. apply Hn. unfold matching. by apply elem_of_list_to_set.
Qed.

Lemma eventFor_paths_sublist (m : gmap string FileInfo) (l : list (string * FileInfo)) :
  Path <$> omap (eventFor m) l `sublist_of` l.*1.
Proof.
  induction l as [|[p i] l IH]; [done|]. csimpl.
  destruct (eventFor m (p, i)) as [e|] eqn:Hev.
  - csimpl. rewrite (eventFor_Path _ _ _ Hev). simpl. by constructor.
  - by constructor.
Qed.

(** X15.  Over a traversal that meets every path once, no path has two
    events in a batch. *)
Theorem scan2_one_event_per_path dw w c evs dw' :
  scan dw w (path dw) = Ret c ->
  scan2 dw w = Ret (evs, dw') ->
  NoDup (fresh (Pattern dw) c).*1 ->
  NoDup (Path <$> evs).
Proof.
  intros Hc (c' & Hc' & _ & -> & _)%scan2_inv Hnd.
  rewrite Hc in Hc'. injection Hc' as <-.
  rewrite scanned_changed by exact Hnd. rewrite fmap_app.
  apply NoDup_app. split; [|split].
  - eapply sublist_NoDup; [exact Hnd | apply eventFor_paths_sublist].
  - intros p Hp1 Hp2.
    apply list_elem_of_fmap in Hp2 as ([ty q i] & -> & Hdel). simpl in Hp1.
    pose proof (deletions_kinds (scanned dw c)) as Hk.
    rewrite Forall_forall in Hk. pose proof (Hk _ Hdel) as Hty. simpl in Hty.
    subst ty. apply elem_of_deletions in Hdel as [_ Hn].
    apply Hn. rewrite scanned_touched. unfold matching.
    apply elem_of_list_to_set.
    eapply elem_of_sublist; [exact Hp1 | apply eventFor_paths_sublist].
  - unfold deletions. rewrite <- list_fmap_compose.
    apply (NoDup_fmap_2_strong _).
    + intros [p i] [q j] Hin1 Hin2 Heq. simpl in Heq. subst q.
      apply list_elem_of_filter in Hin1 as [_ Hin1].
      apply list_elem_of_filter in Hin2 as [_ Hin2].
      apply range_elem in Hin1, Hin2. congruence.
    + apply NoDup_filter, range_NoDup_pairs.
Qed.

Lemma noteAll_files_in l : forall st p i,
  NoDup l.*1 -> (p, i) ∈ l ->
  st_files (noteAll st l) !! p
  = Some match st_files st !! p with
         | Some oldInfo => if ModTime oldInfo <? ModTime i then i else oldInfo
         | None => i
         end.
Proof.
  induction l as [|[q j] l IH]; intros st p i Hnd Hin;
    [by apply elem_of_nil in Hin|].
  rewrite fmap_cons in Hnd. cbn [fst] in Hnd. apply NoDup_cons in Hnd as [Hq Hnd].
  rewrite noteAll_cons. apply elem_of_cons in Hin as [[= -> ->]|Hin].
  - rewrite noteAll_files_notin by exact Hq.
    rewrite note_files. unfold eventFor, After. simpl.
    destruct (st_files st !! q) as [old|] eqn:Hold.
    + destruct (ModTime old <? ModTime j); [apply lookup_insert_eq | exact Hold].
    + apply lookup_insert_eq.
  - rewrite (IH _ p i Hnd Hin). rewrite note_files_ne; [reflexivity|].
    intros ->. apply Hq. apply list_elem_of_fmap. by exists (p, i).
Qed.

(** X16.  The record the snapshot keeps for an entry met by the scan: the
    new metadata if the path was not in the snapshot or the modification
    time is strictly later, the stored record otherwise; a change that does
    not advance the modification time never reaches the snapshot. *)
Theorem scan2_snapshot_records dw w c evs dw' p info :
  scan dw w (path dw) = Ret c ->
  scan2 dw w = Ret (evs, dw') ->
  NoDup (fresh (Pattern dw) c).*1 ->
  (p, info) ∈ fresh (Pattern dw) c ->
  files dw' !! p
  = Some match files dw !! p with
         | Some oldInfo =>
             if ModTime oldInfo <? ModTime info then info else oldInfo
         | None => info
         end.
Proof.
  intros Hc (c' & Hc' & _ & _ & ->)%scan2_inv Hnd Hin.
  rewrite Hc in Hc'. injection Hc' as <-. cbn [set_files files].
  rewrite sweep_lookup, scanned_touched, decide_True.
  - unfold scanned. by rewrite (noteAll_files_in _ _ p info Hnd Hin).
  - unfold matching. apply elem_of_list_to_set, list_elem_of_fmap.
    by exists (p, info).
Qed.

Lemma scan2_nothing_fresh dw w c evs dw' :
  scan dw w (path dw) = Ret c ->
  scan2 dw w = Ret (evs, dw') ->
  fresh (Pattern dw) c = [] ->
  files dw' = ∅
  /\ evs ≡ₚ (fun kv => mkEvent Deleted kv.1 kv.2) <$> map_to_list (files dw).
Proof.
  intros Hc (c' & Hc' & _ & -> & ->)%scan2_inv Hfresh.
  rewrite Hc in Hc'. injection Hc' as <-.
  assert (scanned dw c = mkScanState (files dw) [] ∅) as ->
    by (unfold scanned; by rewrite Hfresh).
  split.
  - apply map_eq. intros q. cbn [set_files files].
    rewrite sweep_lookup. cbn [st_touched].
    rewrite decide_False by set_solver. by rewrite lookup_empty.
  - cbn [st_changed app]. apply deletions_untouched.
Qed.

(** X17.  With a pattern that [filepath.Match] refuses, no entry matches:
    the scan reports every file of the snapshot as deleted and leaves the
    snapshot empty, without any error. *)
Theorem scan2_bad_pattern dw w evs dw' :
  (forall name, Match (Pattern dw) name = None) ->
  scan2 dw w = Ret (evs, dw') ->
  files dw' = ∅
  /\ evs ≡ₚ (fun kv => mkEvent Deleted kv.1 kv.2) <$> map_to_list (files dw).
Proof.
  intros Hbad Hrun. pose proof Hrun as (c & Hc & _)%scan2_inv.
  apply (scan2_nothing_fresh dw w c); [exact Hc | exact Hrun |].
  apply elem_of_nil_inv. intros [p i] Hin.
  apply elem_of_fresh in Hin as (_ & _ & Hm).
  unfold matches in Hm. rewrite Hbad in Hm. discriminate.
Qed.
End BatchFacts.

(** ** Starting, ticking and stopping *)

Section LifecycleFacts.
Context `{Platform}.

Lemma set_files_same dw : set_files dw (files dw) = dw.
Proof. by destruct dw. Qed.

(** A scan over a snapshot that already holds, for every recorded entry, a
    record at least as recent, and nothing else, changes nothing. *)
Lemma scan2_settled dw w c :
  scan dw w (path dw) = Ret c ->
  Forall (fun pair : strFileInfo => pair.2 <> None) c ->
  settled (files dw) (fresh (Pattern dw) c) ->
  dom (files dw) ⊆ matching (Pattern dw) c ->
  scan2 dw w = Ret ([], dw).
Proof.
  intros Hc Hall Hset Hdom. rewrite (scan2_total dw w c Hc Hall).
  assert (scanned dw c = mkScanState (files dw) [] (matching (Pattern dw) c))
    as Hst.
  { unfold scanned. rewrite noteAll_settled_id by exact Hset. f_equal.
    unfold matching. set_solver. }
  assert (dom (st_files (scanned dw c)) ⊆ st_touched (scanned dw c)) as Hsub
    by (by rewrite Hst).
  rewrite (deletions_nil _ Hsub), (sweep_dom _ Hsub), Hst. simpl.
  by rewrite set_files_same.
Qed.

(** After a scan the snapshot is in that state for the same tree. *)
Lemma scan2_settles dw w evs dw' :
  scan2 dw w = Ret (evs, dw') ->
  exists c, scan dw' w (path dw') = Ret c
    /\ Forall (fun pair : strFileInfo => pair.2 <> None) c
    /\ settled (files dw') (fresh (Pattern dw') c)
    /\ dom (files dw') ⊆ matching (Pattern dw') c.
Proof.
  intros (c & Hc & Hall & _ & ->)%scan2_inv. exists c.
  split; [exact Hc|]. split; [exact Hall|]. cbn [set_files files Pattern]. split.
  - intros p i Hin.
    destruct (noteAll_settled (fresh (Pattern dw) c)
                (mkScanState (files dw) [] ∅) p i Hin) as (j & Hj & Hle).
    exists j. split; [|exact Hle]. rewrite sweep_lookup.
    rewrite decide_True; [exact Hj|].
    rewrite scanned_touched. apply elem_of_matching.
    apply elem_of_fresh in Hin as (? & ? & ?). exists i. auto.
  - by rewrite scanned_sweep_dom.
Qed.

Lemma scan2_again dw w evs dw' :
  scan2 dw w = Ret (evs, dw') -> scan2 dw' w = Ret ([], dw').
Proof.
  intros (c & Hc & Hall & Hset & Hdom)%scan2_settles.
  by apply (scan2_settled dw' w c).
Qed.

Lemma int64_small z : - 2 ^ 63 <= z < 2 ^ 63 -> int64 z = z.
Proof. intros Hz. unfold int64. rewrite Z.mod_small; lia. Qed.

(** X18.  [Start] on an idle watcher whose [Interval] is 0 panics:
    [time.NewTicker] refuses the duration. *)
Theorem Start_zero_interval dw w now :
  ticker dw = None -> Interval dw = 0 -> Start dw w now = Panic.
Proof.
  intros Hidle Hzero. unfold Start. rewrite Hidle.
  destruct (scan2 _ w) as [r|]; [|reflexivity]. simpl.
  assert (Interval (if Recursive dw then set_scan dw recScanner else dw) = 0)
    as -> by (by destruct (Recursive dw)).
  reflexivity.
Qed.

(** X19.  When [Start] returns on an idle watcher whose [Interval] is
    between 1 and 9223372036854 ms, the ticker has the period [Interval]
    milliseconds: the conversion to nanoseconds does not overflow. *)
Theorem Start_period dw w now dw' tr :
  ticker dw = None ->
  0 < Interval dw <= 9223372036854 ->
  Start dw w now = Ret (dw', tr) ->
  ticker dw' = Some (mkTicker (Interval dw * 1000000)).
Proof.
  intros Hidle Hint Hstart. unfold Start in Hstart. rewrite Hidle in Hstart.
  apply bind_Ret in Hstart as (r & _ & Hstart).
  apply bind_Ret in Hstart as (t & Ht & Hstart).
  injection Hstart as <- _. simpl. f_equal.
  assert (Interval (if Recursive dw then set_scan dw recScanner else dw)
          = Interval dw) as Hi by (by destruct (Recursive dw)).
  rewrite Hi in Ht. unfold NewTicker, Millisecond in Ht.
  rewrite (int64_small (Interval dw)) in Ht by lia.
  rewrite int64_small in Ht by lia.
  destruct (_ <=? 0) eqn:Hle; [discriminate|]. by injection Ht as <-.
Qed.

(** What an effective [Start] returns. *)
Lemma Start_inv dw w now dw' tr :
  ticker dw = None ->
  Start dw w now = Ret (dw', tr) ->
  let dw0 := if Recursive dw then set_scan dw recScanner else dw in
  exists evs dwS t,
    scan2 dw0 w = Ret (evs, dwS)
    /\ NewTicker (int64 (int64 (Interval dw) * Millisecond)) = Ret t
    /\ dw' = set_ticker dwS (Some t)
    /\ ticker dwS = None
    /\ (if Recursive dwS then set_scan dwS recScanner else dwS) = dwS
    /\ Interval dwS = Interval dw.
Proof.
  intros Hidle Hstart dw0. unfold Start in Hstart. rewrite Hidle in Hstart.
  fold dw0 in Hstart.
  apply bind_Ret in Hstart as ([evs dwS] & Hscan & Hstart).
  apply bind_Ret in Hstart as (t & Ht & Hstart).
  injection Hstart as <- _. exists evs, dwS, t.
  assert (Interval dw0 = Interval dw) as Hi
    by (unfold dw0; by destruct (Recursive dw)).
  rewrite Hi in Ht. split; [exact Hscan|]. split; [exact Ht|].
  split; [reflexivity|].
  pose proof Hscan as (c & _ & _ & _ & ->)%scan2_inv.
  unfold dw0. destruct dw as [i r pat sc pth fs tk obs pre].
  simpl in Hidle. subst tk. destruct r; simpl; auto.
Qed.

(** X21.  The snapshot outlives [Stop]: starting again a watcher that was
    started and stopped, over the same directory, sends nothing and gives
    back the watcher as it was running. *)
Theorem Start_restart_silent dw w now dw1 tr dw2 now2 :
  ticker dw = None ->
  Start dw w now = Ret (dw1, tr) ->
  Stop dw1 = Ret dw2 ->
  Start dw2 w now2 = Ret (dw1, []).
Proof.
  intros Hidle Hstart Hstop.
  destruct (Start_inv _ _ _ _ _ Hidle Hstart)
    as (evs & dwS & t & Hscan & Ht & -> & HidleS & Hrec & Hint).
  unfold Stop in Hstop. simpl in Hstop. injection Hstop as <-.
  assert (set_ticker (set_ticker dwS (Some t)) None = dwS) as ->
    by (destruct dwS; simpl in HidleS; by subst).
  unfold Start. rewrite HidleS, Hrec, (scan2_again _ _ _ _ Hscan). simpl.
  rewrite Hint, Ht. simpl.
  destruct (Preload dwS); [reflexivity|]. by rewrite notify_empty.
Qed.

(** X22.  The tick that follows [Start] over an unchanged directory sends
    nothing and leaves the watcher as it is. *)
Theorem tick_after_Start_silent dw w now dw1 tr now2 :
  ticker dw = None ->
  Start dw w now = Ret (dw1, tr) ->
  tick dw1 w now2 = Ret (dw1, []).
Proof.
  intros Hidle Hstart.
  destruct (Start_inv _ _ _ _ _ Hidle Hstart)
    as (evs & dwS & t & Hscan & Ht & -> & HidleS & Hrec & Hint).
  pose proof (scan2_again _ _ _ _ Hscan) as Hagain.
  apply scan2_settles in Hagain as (c & Hc & Hall & Hset & Hdom).
  unfold tick.
  rewrite (scan2_settled (set_ticker dwS (Some t)) w c Hc Hall Hset Hdom).
  simpl. by rewrite notify_empty.
Qed.

Lemma sends_count (evAt : EventsAt) (o : Observer) (os : list Observer) :
  length (filter (fun s : Observer * EventsAt => s.1 = o)
            ((fun ch => (ch, evAt)) <$> os))
  = length (filter (fun ch => ch = o) os).
Proof.
  induction os as [|ch os IH]; [reflexivity|]. rewrite fmap_cons.
  destruct (decide (ch = o)) as [->|Hne].
  - rewrite !filter_cons_True by done. simpl. by rewrite IH.
  - rewrite !filter_cons_False by done. exact IH.
Qed.

(** X23.  [notify] does not tell observers apart: a channel registered
    several times is sent a batch with events that many times. *)
Theorem notify_duplicates dw evAt o :
  Events evAt <> [] ->
  length (filter (fun s : Observer * EventsAt => s.1 = o) (notify dw evAt []))
  = length (filter (fun ch => ch = o) (observers dw)).
Proof.
  intros Hne. rewrite notify_sends by exact Hne. simpl. apply sends_count.
Qed.
End LifecycleFacts.

(** ** The further properties on the worked examples *)

Lemma Map_entries_witness :
  env.Map (env.entry <$> exEnviron) = Ret (list_to_map (reverse exEnviron)).
Proof.
  apply (Map_entries exEnviron). repeat constructor.
Defined.

Lemma Map_truncates_witness :
  env.Map (["A=1"] ++ ["B" +:+ "=" +:+ "x" +:+ "=" +:+ "y=z"])
  = Ret (<["B" := "x"]> (<["A" := "1"]> ∅)).
Proof.
  apply (Map_truncates ["A=1"] (<["A" := "1"]> ∅) "B" "x" "y=z");
    reflexivity.
Defined.

Lemma NewOpts_applies_witness :
  NewOpts (H := testPlatform) exTree "d" exOpts
  = Ret (inl exOptsWatcher, exOptsLeft)
  /\ Interval exOptsWatcher = 2000
  /\ Pattern exOptsWatcher = "*.go"
  /\ exOptsLeft !! "Interval" = Some (VInt 500)
  /\ exOptsLeft !! "Pattern" = None.
Proof.
  assert (NewOpts (H := testPlatform) exTree "d" exOpts
          = Ret (inl exOptsWatcher, exOptsLeft)) as Hrun by by_evaluation.
  split; [exact Hrun|].
  destruct (NewOpts_applies (H := testPlatform) exTree "d" exOpts
              exOptsWatcher exOptsLeft Hrun)
    as (Hi & _ & Hp & _ & _ & Hleft).
  split; [exact Hi|]. split; [exact Hp|].
  split; [exact (Hleft "Interval") | exact (Hleft "Pattern")].
Defined.

Lemma recScanner_listing_witness :
  recScanner (H := testPlatform) exTree "d"
  = Ret (listing (H := testPlatform) "d" exTree).
Proof.
  apply (recScanner_listing (H := testPlatform) exTree "d"); reflexivity.
Defined.

Lemma scan2_recursive_total_witness :
  exists evs dw',
    scan2 (H := testPlatform) exRecursive exUnreadable = Ret (evs, dw').
Proof.
  apply (scan2_recursive_total (H := testPlatform) exRecursive exUnreadable);
    reflexivity.
Defined.

Lemma scan1_passes_unreadable_witness :
  exists evs dwi',
    Inline.scan1 (H := testPlatform) exInline exUnreadable = Ret (evs, dwi')
    /\ dom (Inline.files dwi')
       = matching (H := testPlatform) (Inline.Pattern exInline)
           (listing (H := testPlatform) (Inline.path exInline) exUnreadable).
Proof.
  apply (scan1_passes_unreadable (H := testPlatform) exInline exUnreadable);
    reflexivity.
Defined.

(** X10 on the example: the three entries of [d], in order, and nothing of
    [sub]. *)
Lemma globScanner_shallow_witness :
  globScanner (H := testPlatform) exTree "d"
  = Ret (omap (fun k =>
                 if matches (H := testPlatform) "*" (node_name k)
                 then info ← Lstat k;
                      Some (Join (Platform := testPlatform) "d" (node_name k),
                            Some info)
                 else None)
              (children exTree))
  /\ globScanner (H := testPlatform) exTree "d" = Ret exTraversal.
Proof.
  split; [|by_evaluation].
  apply (globScanner_shallow (H := testPlatform) exTree "d"). reflexivity.
Defined.

Lemma scan2_glob_total_witness :
  exists evs dw',
    scan2 (H := testPlatform) exWatcher exMissing = Ret (evs, dw').
Proof.
  apply (scan2_glob_total (H := testPlatform) exWatcher exMissing).
  reflexivity.
Defined.



Lemma exWatcher_NoDup :
  NoDup (fresh (H := testPlatform) (Pattern exWatcher) exTraversal).*1.
Proof. rewrite exWatcher_fresh. by_decision. Defined.

Lemma exWatcher_entry :
  ("d/a.txt", exInfoA)
  ∈ fresh (H := testPlatform) (Pattern exWatcher) exTraversal.
Proof. rewrite exWatcher_fresh. by_decision. Defined.

Lemma scan2_batch_witness :
  exists dels,
    exBatch
    = omap (eventFor (files exWatcher))
        (fresh (H := testPlatform) (Pattern exWatcher) exTraversal) ++ dels
    /\ dels ≡ₚ (fun kv => mkEvent Deleted kv.1 kv.2)
                 <$> filter
                       (fun kv =>
                          kv.1 ∉ matching (H := testPlatform)
                                   (Pattern exWatcher) exTraversal)
                       (map_to_list (files exWatcher)).
Proof.
  apply (scan2_batch (H := testPlatform) exWatcher exTree exTraversal exBatch
           exAfter).
  - exact exWatcher_traversal.
  - exact exWatcher_scan.
  - exact exWatcher_NoDup.
Defined.

Lemma scan2_events_sound_witness :
  (Type_ (mkEvent Changed "d/a.txt" exInfoA) = Deleted
   /\ files exWatcher !! "d/a.txt" = Some exInfoA
   /\ ~ touches (H := testPlatform) (Pattern exWatcher) exTraversal "d/a.txt")
  \/ (Type_ (mkEvent Changed "d/a.txt" exInfoA) <> Deleted
      /\ ("d/a.txt", Some exInfoA) ∈ exTraversal
      /\ IsDir exInfoA = false
      /\ matches (H := testPlatform) (Pattern exWatcher) (Name exInfoA) = true).
Proof.
  apply (scan2_events_sound (H := testPlatform) exWatcher exTree exTraversal
           exBatch exAfter (mkEvent Changed "d/a.txt" exInfoA)).
  - exact exWatcher_traversal.
  - exact exWatcher_scan.
  - by_decision.
Defined.

Lemma scan2_one_event_per_path_witness : NoDup (Path <$> exBatch).
Proof.
  apply (scan2_one_event_per_path (H := testPlatform) exWatcher exTree
           exTraversal exBatch exAfter).
  - exact exWatcher_traversal.
  - exact exWatcher_scan.
  - exact exWatcher_NoDup.
Defined.

Lemma scan2_snapshot_records_witness :
  files exAfter !! "d/a.txt" = Some exInfoA.
Proof.
  apply (scan2_snapshot_records (H := testPlatform) exWatcher exTree
           exTraversal exBatch exAfter "d/a.txt" exInfoA).
  - exact exWatcher_traversal.
  - exact exWatcher_scan.
  - exact exWatcher_NoDup.
  - exact exWatcher_entry.
Defined.

Lemma scan2_bad_pattern_witness :
  files (set_files exBadPattern ∅) = ∅
  /\ [mkEvent Deleted "d/a.txt" exInfoA]
     ≡ₚ (fun kv => mkEvent Deleted kv.1 kv.2)
          <$> map_to_list (files exBadPattern).
Proof.
  apply (scan2_bad_pattern (H := testPlatform) exBadPattern exTree).
  - intros name. reflexivity.
  - by_evaluation.
Defined.

Lemma Start_zero_interval_witness :
  Start (H := testPlatform) exZero exTree 7 = Panic.
Proof.
  apply (Start_zero_interval (H := testPlatform) exZero exTree 7); reflexivity.
Defined.

Lemma exNew_Start :
  Start (H := testPlatform) exNew exTree 7 = Ret (exStarted, exStartTrace).
Proof. by_evaluation. Defined.

Lemma Start_period_witness :
  ticker exStarted = Some (mkTicker (2000 * 1000000)).
Proof.
  apply (Start_period (H := testPlatform) exNew exTree 7 exStarted exStartTrace).
  - reflexivity.
  - simpl. lia.
  - exact exNew_Start.
Defined.

Lemma Start_restart_silent_witness :
  Start (H := testPlatform) (set_ticker exStarted None) exTree 9
  = Ret (exStarted, []).
Proof.
  apply (Start_restart_silent (H := testPlatform) exNew exTree 7 exStarted
           exStartTrace (set_ticker exStarted None) 9).
  - reflexivity.
  - exact exNew_Start.
  - reflexivity.
Defined.

Lemma tick_after_Start_silent_witness :
  tick (H := testPlatform) exStarted exTree 9 = Ret (exStarted, []).
Proof.
  apply (tick_after_Start_silent (H := testPlatform) exNew exTree 7 exStarted
           exStartTrace 9).
  - reflexivity.
  - exact exNew_Start.
Defined.

Lemma notify_duplicates_witness :
  length (filter (fun s : Observer * EventsAt => s.1 = 1%nat)
            (notify exTwice (mkEventsAt 7 [mkEvent Added "d/a.txt" exInfoA]) []))
  = length (filter (fun ch => ch = 1%nat) (observers exTwice)).
Proof.
  apply (notify_duplicates exTwice
           (mkEventsAt 7 [mkEvent Added "d/a.txt" exInfoA]) 1%nat).
  discriminate.
Defined.
